(** * backsplash: slippy-map coordinate conversions (src/index.ts)

    A shallow embedding of the coordinate-conversion module and the proofs of
    its specification.

    ** The model of a JavaScript [number]

    A [number] is a real number or one of the three special values of
    IEEE-754: [NaN], [+Infinity], [-Infinity].  Every arithmetic operator and
    every [Math] function computes the exact real result and hands it to a
    rounding function [rnd]; on the special values and outside the domain of
    a function (division by zero, logarithm of a non-positive number, arcsine
    outside [-1, 1], ...) they follow ECMAScript.  The functions of the
    module are written once, for any rounding.  Two roundings are used:

    - [exact]: no rounding at all.  This is real arithmetic, in which the
      algebraic statements about the trigonometric functions are proved.
    - [binary64]: round to nearest, ties to even, 53 bits of precision,
      gradual underflow below 2^-1022, overflow to an infinity from 2^1024.

    In binary64 the [Math] functions are taken correctly rounded (ECMAScript
    only asks for an approximation); the statements about [binary64] that
    go through one of them depend on it: the zoom round trip (the logarithm
    of an exact power of two) and the evaluation of [haversineMeters] at two
    points of the test suite.  A zoom level is an integer.  Not modelled:
    the sign of zero (a zero divisor counts as [+0]). *)

From Stdlib Require Import Reals Lra Lia ZArith List Zfloor Machin.
From Stdlib Require Floats.
Import ListNotations.

Local Open Scope R_scope.

(** ** Numbers *)

Inductive number : Type :=
| NaN
| PInf
| NInf
| Fin (r : R).

Declare Scope num_scope.
Delimit Scope num_scope with num.
Bind Scope num_scope with number.

Inductive sign : Type := Neg | Zero | Pos.

Definition Rsign (r : R) : sign :=
  if Rlt_dec 0 r then Pos else if Rlt_dec r 0 then Neg else Zero.

Definition signed_inf (s : sign) : number :=
  match s with Pos => PInf | Neg => NInf | Zero => NaN end.

Definition sign_flip (s : sign) : sign :=
  match s with Pos => Neg | Neg => Pos | Zero => Zero end.

(** ** Rounding *)

Class Rounding : Type := rnd : R -> number.

Definition exact : Rounding := Fin.

(** [ilog2 x] is the integer [e] with [2^e <= x < 2^(e+1)], for [0 < x]. *)
Definition ilog2 (x : R) : Z := Zfloor (ln x / ln 2).

(** The exponent of the unit in the last place of the doubles around [x]:
    53 significant bits, and never below the subnormal spacing 2^-1074. *)
Definition quantum (x : R) : Z := Z.max (ilog2 (Rabs x) - 52) (-1074).

(** The nearest integer, the even one when two are equally near. *)
Definition round_half_even (t : R) : Z :=
  let f := Zfloor t in
  match total_order_T (t - IZR f) (1 / 2) with
  | inleft (left _) => f
  | inleft (right _) => if Z.even f then f else (f + 1)%Z
  | inright _ => (f + 1)%Z
  end.

Definition round64 (x : R) : number :=
  if Req_dec_T x 0 then Fin 0
  else
    let u := powerRZ 2 (quantum x) in
    let r := IZR (round_half_even (x / u)) * u in
    if Rle_dec (powerRZ 2 1024) (Rabs r)
    then if Rlt_dec r 0 then NInf else PInf
    else Fin r.

Definition binary64 : Rounding := round64.

(** [a < b] and [a > b] of JavaScript: false as soon as one side is NaN. *)
Definition nltb (a b : number) : bool :=
  match a, b with
  | NaN, _ | _, NaN => false
  | Fin x, Fin y => if Rlt_dec x y then true else false
  | NInf, (Fin _ | PInf) => true
  | Fin _, PInf => true
  | _, _ => false
  end.

Definition ngtb (a b : number) : bool := nltb b a.

Definition nopp (a : number) : number :=
  match a with
  | NaN => NaN
  | PInf => NInf
  | NInf => PInf
  | Fin x => Fin (- x)
  end.

(** [x > max ? max : x < min ? min : x] *)
Definition clamp (x : number) (range : number * number) : number :=
  let (min, max) := range in
  if ngtb x max then max else if nltb x min then min else x.

(** [Math.floor]: the floor of a double is a double, nothing to round. *)
Definition Math_floor (a : number) : number :=
  match a with
  | Fin x => Fin (IZR (Zfloor x))
  | _ => a
  end.

(** [1 << zoom]: the shift count is taken modulo 32 and the result is a
    signed 32-bit integer (which is a double). *)
Definition int32 (z : Z) : Z := ((z + 2 ^ 31) mod 2 ^ 32 - 2 ^ 31)%Z.

Definition shl1 (zoom : Z) : number :=
  Fin (IZR (int32 (Z.shiftl 1 (zoom mod 32)))).

Record LatLong : Type := mkLatLong {
  latitude : number;
  longitude : number
}.

Record LatLongBounds : Type := mkLatLongBounds {
  topLeft : LatLong;
  bottomRight : LatLong
}.

Record WorldCoordinate : Type := mkWorld {
  wc_x : number;
  wc_y : number
}.

Record PixelCoordinate : Type := mkPixel {
  pc_x : number;
  pc_y : number;
  pc_zoom : Z
}.

Record TileCoordinate : Type := mkTile {
  tc_x : number;
  tc_y : number;
  tc_zoom : Z
}.

Record PixelCoordinateBounds : Type := mkPixelBounds {
  pb_topLeft : PixelCoordinate;
  pb_bottomRight : PixelCoordinate
}.

(** [xs.forEach(x => ys.forEach(y => coords.push({x, y, zoom})))] *)
Definition tile_product (xs ys : list number) (zoom : Z)
  : list TileCoordinate :=
  flat_map (fun x => map (fun y => {| tc_x := x; tc_y := y; tc_zoom := zoom |})
                         ys) xs.

Section Semantics.

Context {rounding : Rounding}.

(** ** Arithmetic *)

Definition nadd (a b : number) : number :=
  match a, b with
  | NaN, _ | _, NaN => NaN
  | Fin x, Fin y => rnd (x + y)
  | PInf, NInf | NInf, PInf => NaN
  | PInf, _ | _, PInf => PInf
  | NInf, _ | _, NInf => NInf
  end.

Definition nsub (a b : number) : number :=
  match a, b with
  | NaN, _ | _, NaN => NaN
  | Fin x, Fin y => rnd (x - y)
  | PInf, PInf | NInf, NInf => NaN
  | PInf, _ | _, NInf => PInf
  | NInf, _ | _, PInf => NInf
  end.

Definition nmul (a b : number) : number :=
  match a, b with
  | NaN, _ | _, NaN => NaN
  | Fin x, Fin y => rnd (x * y)
  | Fin x, PInf | PInf, Fin x => signed_inf (Rsign x)
  | Fin x, NInf | NInf, Fin x => signed_inf (sign_flip (Rsign x))
  | PInf, PInf | NInf, NInf => PInf
  | PInf, NInf | NInf, PInf => NInf
  end.

Definition ndiv (a b : number) : number :=
  match a, b with
  | NaN, _ | _, NaN => NaN
  | Fin x, Fin y =>
      if Req_dec_T y 0 then signed_inf (Rsign x) else rnd (x / y)
  | Fin _, (PInf | NInf) => Fin 0
  | PInf, Fin y => if Rlt_dec y 0 then NInf else PInf
  | NInf, Fin y => if Rlt_dec y 0 then PInf else NInf
  | (PInf | NInf), (PInf | NInf) => NaN
  end.

Infix "+" := nadd : num_scope.
Infix "-" := nsub : num_scope.
Infix "*" := nmul : num_scope.
Infix "/" := ndiv : num_scope.
Infix "<?" := nltb (at level 70) : num_scope.
Infix ">?" := ngtb (at level 70) : num_scope.

(** A literal that is not a double is read as the nearest one.  Integer
    literals (and 0.5) are doubles and are written with [Fin]. *)
Definition lit (r : R) : number := rnd r.

(** ** The [Math] object (each function rounds the exact result) *)

Definition Math_PI : number := rnd PI.

Definition Math_sin (a : number) : number :=
  match a with Fin x => rnd (sin x) | _ => NaN end.

Definition Math_cos (a : number) : number :=
  match a with Fin x => rnd (cos x) | _ => NaN end.

Definition Math_sqrt (a : number) : number :=
  match a with
  | Fin x => if Rle_dec 0 x then rnd (sqrt x) else NaN
  | PInf => PInf
  | _ => NaN
  end.

Definition Math_asin (a : number) : number :=
  match a with
  | Fin x => if Rle_dec (-1) x then if Rle_dec x 1 then rnd (asin x) else NaN
             else NaN
  | _ => NaN
  end.


Definition Math_log (a : number) : number :=
  match a with
  | Fin x => match Rsign x with
             | Pos => rnd (ln x)
             | Zero => NInf
             | Neg => NaN
             end
  | PInf => PInf
  | _ => NaN
  end.

Definition Math_log2 (a : number) : number :=
  match a with
  | Fin x => match Rsign x with
             | Pos => rnd (ln x / ln 2)
             | Zero => NInf
             | Neg => NaN
             end
  | PInf => PInf
  | _ => NaN
  end.

(** [Math.pow(2, zoom)] for an integer [zoom]. *)
Definition Math_pow2 (zoom : Z) : number := rnd (powerRZ 2 zoom).

Local Open Scope num_scope.

(** ** Great-circle distance *)

Definition degToRad (deg : number) : number := deg / Fin 180 * Math_PI.

Definition EARTH_RADIUS_METERS : number := Fin 6372800.

Definition haversineMeters (pt1 pt2 : LatLong) : number :=
  let lat1 := degToRad (latitude pt1) in
  let lon1 := degToRad (longitude pt1) in
  let lat2 := degToRad (latitude pt2) in
  let lon2 := degToRad (longitude pt2) in
  let dLat := lat2 - lat1 in
  let dLon := lon2 - lon1 in
  let a := Math_sin (dLat / Fin 2) * Math_sin (dLat / Fin 2)
           + Math_sin (dLon / Fin 2) * Math_sin (dLon / Fin 2)
             * Math_cos lat1 * Math_cos lat2 in
  let c := Fin 2 * Math_asin (Math_sqrt a) in
  EARTH_RADIUS_METERS * c.

(** ** Zoom selection *)

Definition googleZoomLevel (loc : LatLong) (metersPerPx : number) : number :=
  let idealZoom :=
    Math_log2 (lit 156543.03392
               * Math_cos (latitude loc * Math_PI / Fin 180) / metersPerPx) in
  clamp (Math_floor idealZoom) (Fin 1, Fin 20).

Definition googleZoomMetersPerPx (loc : LatLong) (zoom : Z) : number :=
  lit 156543.03392 * Math_cos (latitude loc * Math_PI / Fin 180)
  / Math_pow2 zoom.

Definition chooseZoom (extent : LatLongBounds) (clientWidth : number)
  : number :=
  let topRight := {| latitude := latitude (topLeft extent);
                     longitude := longitude (bottomRight extent) |} in
  let metersWidth := haversineMeters (topLeft extent) topRight in
  let desiredMetersPerPx := metersWidth / clientWidth in
  googleZoomLevel topRight desiredMetersPerPx.

(** ** World, pixel and tile coordinates *)

Definition GOOGLE_TILE_SIZE : number := Fin 256.

Definition toWorldCoords (loc : LatLong) : WorldCoordinate :=
  let siny := clamp (Math_sin (latitude loc * Math_PI / Fin 180))
                    (nopp (lit 0.9999), lit 0.9999) in
  {| wc_x := GOOGLE_TILE_SIZE * (Fin 0.5 + longitude loc / Fin 360);
     wc_y := GOOGLE_TILE_SIZE
             * (Fin 0.5 - Math_log ((Fin 1 + siny) / (Fin 1 - siny))
                          / (Fin 4 * Math_PI)) |}.



Definition worldToPixelCoords (w : WorldCoordinate) (zoom : Z)
  : PixelCoordinate :=
  let zoomFactor := shl1 zoom in
  {| pc_x := wc_x w * zoomFactor;
     pc_y := wc_y w * zoomFactor;
     pc_zoom := zoom |}.

Definition pixelToWorldCoords (p : PixelCoordinate) : WorldCoordinate :=
  let zoomFactor := shl1 (pc_zoom p) in
  {| wc_x := pc_x p / zoomFactor;
     wc_y := pc_y p / zoomFactor |}.

Definition pixelToTileCoords (p : PixelCoordinate) : TileCoordinate :=
  {| tc_x := Math_floor (pc_x p / GOOGLE_TILE_SIZE);
     tc_y := Math_floor (pc_y p / GOOGLE_TILE_SIZE);
     tc_zoom := pc_zoom p |}.

Definition tileToPixelCoords (t : TileCoordinate) : PixelCoordinateBounds :=
  let topLeft := {| pc_x := tc_x t * GOOGLE_TILE_SIZE;
                    pc_y := tc_y t * GOOGLE_TILE_SIZE;
                    pc_zoom := tc_zoom t |} in
  let bottomRight := {| pc_x := (tc_x t + Fin 1) * GOOGLE_TILE_SIZE;
                        pc_y := (tc_y t + Fin 1) * GOOGLE_TILE_SIZE;
                        pc_zoom := tc_zoom t |} in
  {| pb_topLeft := topLeft; pb_bottomRight := bottomRight |}.

Definition tileCoordinate (loc : LatLong) (zoom : Z) : TileCoordinate :=
  pixelToTileCoords (worldToPixelCoords (toWorldCoords loc) zoom).


(** The pixel that the test suite (index.spec.ts, "anywhere inside the tile
    bounds maps to the same tile") builds from a tile and two weights:
    on each axis [weight * topLeft + (1 - weight) * bottomRight]. *)
Definition weightedInterior (tc : TileCoordinate) (xWeight yWeight : number)
  : PixelCoordinate :=
  let pixelBounds := tileToPixelCoords tc in
  {| pc_x := xWeight * pc_x (pb_topLeft pixelBounds)
             + (Fin 1 - xWeight) * pc_x (pb_bottomRight pixelBounds);
     pc_y := yWeight * pc_y (pb_topLeft pixelBounds)
             + (Fin 1 - yWeight) * pc_y (pb_bottomRight pixelBounds);
     pc_zoom := tc_zoom tc |}.



(** ** Enumerating the tiles of a bounding box *)

(** The [while] loop of [inclusiveRange].  [range] is the array built so
    far and [curr] the counter; the loop test reads the last element of the
    array ([undefined] on an empty array compares like NaN).  [fuel] bounds
    the number of iterations: [None] means that the bound was reached with
    the test still true. *)
Fixpoint inclusiveRange_loop (fuel : nat) (range : list number)
  (curr max : number) : option (list number) :=
  if last range NaN <? max then
    match fuel with
    | O => None
    | S fuel' =>
        let curr' := curr + Fin 1 in
        inclusiveRange_loop fuel' (range ++ [curr']) curr' max
    end
  else Some range.

Definition inclusiveRange (fuel : nat) (min max : number)
  : option (list number) :=
  inclusiveRange_loop fuel [min] min max.

Definition tileCoordinates (fuel : nat) (extent : LatLongBounds) (zoom : Z)
  : option (list TileCoordinate) :=
  let tl := tileCoordinate (topLeft extent) zoom in
  let br := tileCoordinate (bottomRight extent) zoom in
  match inclusiveRange fuel (tc_x tl) (tc_x br) with
  | None => None
  | Some xs =>
      match inclusiveRange fuel (tc_y tl) (tc_y br) with
      | None => None
      | Some ys => Some (tile_product xs ys zoom)
      end
  end.

End Semantics.

Infix "+" := nadd : num_scope.
Infix "-" := nsub : num_scope.
Infix "*" := nmul : num_scope.
Infix "/" := ndiv : num_scope.
Infix "<?" := nltb (at level 70) : num_scope.
Infix ">?" := ngtb (at level 70) : num_scope.

(** One axis of [weightedInterior] on the primitive binary64 floats of the
    kernel, to cross-check [round64]. *)
Definition weighted_axis_float (w tl br : PrimFloat.float) : PrimFloat.float :=
  PrimFloat.add (PrimFloat.mul w tl)
                (PrimFloat.mul (PrimFloat.sub PrimFloat.one w) br).

(** The argument of the square root in [haversineMeters] on the primitive
    floats, from the two sines and the two cosines. *)
Definition haversine_a_float (sinLat sinLon cos1 cos2 : PrimFloat.float)
  : PrimFloat.float :=
  PrimFloat.add (PrimFloat.mul sinLat sinLat)
                (PrimFloat.mul (PrimFloat.mul (PrimFloat.mul sinLon sinLon)
                                              cos1)
                               cos2).

(** The primitive float [m * 2^q]. *)
Definition float_dyadic (m : positive) (q : Z) : PrimFloat.float :=
  FloatOps.SF2Prim (SpecFloat.S754_finite false m q).

(** ** Vocabulary of the statements *)

(** A point with real (finite) coordinates, in degrees. *)
Definition geo (lat lon : R) : LatLong :=
  {| latitude := Fin lat; longitude := Fin lon |}.


(** A zoom level: an integer between 1 and 20. *)
Definition is_zoom_level (n : number) : Prop :=
  exists z : Z, n = Fin (IZR z) /\ (1 <= z <= 20)%Z.







(** The integers [a, a + 1, ..., a + n - 1], and those from [a] to [b]. *)
Fixpoint Zseq (a : Z) (n : nat) : list Z :=
  match n with
  | O => []
  | S n' => a :: Zseq (a + 1) n'
  end.

Definition Zrange (a b : Z) : list Z := Zseq a (Z.to_nat (b - a + 1)).

Definition integers (l : list Z) : list number :=
  map (fun z => Fin (IZR z)) l.

(** The tiles [(x, y, zoom)] for [x] from [x0] to [x1] and, for each [x],
    [y] from [y0] to [y1]. *)
Definition cartesian_tiles (x0 x1 y0 y1 zoom : Z) : list TileCoordinate :=
  flat_map (fun x => map (fun y => {| tc_x := Fin (IZR x);
                                      tc_y := Fin (IZR y);
                                      tc_zoom := zoom |})
                         (Zrange y0 y1))
           (Zrange x0 x1).

(** The real [m * 2^q]; a double when [|m| < 2^53] (and [q] is in range). *)
Definition dyadic (m q : Z) : R := IZR m * powerRZ 2 q.


(** [cos_sum m k n = (s, t, d)]: at [x = m / 2^k] the partial sum of order
    [n] of the cosine series is [s / d] and its last term is [t / d]. *)
Fixpoint cos_sum (m k : Z) (n : nat) : Z * Z * Z :=
  match n with
  | O => (1, 1, 1)%Z
  | S n' =>
      let '(s, t, d) := cos_sum m k n' in
      let c := (2 ^ (2 * k) * (2 * Z.of_nat n' + 1) * (2 * Z.of_nat n' + 2))%Z in
      let t' := (- (t * m * m))%Z in
      ((s * c + t')%Z, t', (d * c)%Z)
  end.

(** The double [m * 2^q] is the nearest to the cosine of [mx / 2^k]: the
    partial sums of orders [2n + 1] and [2n + 2], which enclose the cosine,
    are within half a unit in the last place of it. *)
Definition cos_check (mx k : Z) (n : nat) (m q : Z) : bool :=
  let '(s1, _, d1) := cos_sum mx k (2 * n + 1) in
  let '(s2, _, d2) := cos_sum mx k (2 * (n + 1)) in
  ((0 <=? k) && (q <? 0) && (Z.abs mx <=? 2 ^ (k + 1))
   && ((2 * m - 1) * d1 <? s1 * 2 ^ (1 - q))
   && (s2 * 2 ^ (1 - q) <? (2 * m + 1) * d2))%Z%bool.


(** * Facts that hold for every rounding *)

Section AnyRounding.

Context {rounding : Rounding}.

Local Open Scope num_scope.

Lemma nltb_Fin_true (x y : R) : (x < y)%R -> (Fin x <? Fin y) = true.
Proof. intros H. unfold nltb. destruct (Rlt_dec x y); [reflexivity | contradiction]. Qed.

Lemma nltb_Fin_false (x y : R) : (y <= x)%R -> (Fin x <? Fin y) = false.
Proof. intros H. unfold nltb. destruct (Rlt_dec x y); [lra | reflexivity]. Qed.

Lemma nltb_irrefl (a : number) : (a <? a) = false.
Proof. destruct a; try reflexivity. apply nltb_Fin_false. lra. Qed.

(** When [min < max] is false, the loop body never runs. *)
Lemma inclusiveRange_single (fuel : nat) (min max : number) :
  (min <? max) = false -> inclusiveRange fuel min max = Some [min].
Proof.
  intros H. unfold inclusiveRange. destruct fuel; simpl; rewrite H; reflexivity.
Qed.





(** C7: on a box whose two corners are the same point [tileCoordinates]
    returns, whatever the zoom (and without entering either loop), a list of
    exactly one tile. *)
Theorem tileCoordinates_degenerate_box (p : LatLong) (zoom : Z) (fuel : nat) :
  exists l : list TileCoordinate,
    tileCoordinates fuel {| topLeft := p; bottomRight := p |} zoom = Some l
    /\ length l = 1%nat.
Proof.
  exists [tileCoordinate p zoom]. split; [| reflexivity].
  unfold tileCoordinates; cbn [topLeft bottomRight].
  rewrite 2 inclusiveRange_single by apply nltb_irrefl.
  reflexivity.
Qed.

(** C9: [chooseZoom] never reads the latitude of the bottom-right corner:
    two boxes with the same top-left corner and the same bottom-right
    longitude get the same zoom, whatever their bottom-right latitudes and
    for every viewport width. *)
Theorem chooseZoom_ignores_bottom_latitude
  (extent extent' : LatLongBounds) (clientWidth : number) :
  topLeft extent = topLeft extent' ->
  longitude (bottomRight extent) = longitude (bottomRight extent') ->
  chooseZoom extent clientWidth = chooseZoom extent' clientWidth.
Proof.
  intros Htl Hlon. unfold chooseZoom.
  rewrite Htl, Hlon. reflexivity.
Qed.

End AnyRounding.

(** * Counting integers

    [inclusiveRange] counts from one integer to another if the rounding
    leaves the integers on the way alone (both roundings do: the exact one
    always, binary64 below 2^53). *)



Lemma Zrange_cons (a b : Z) : (a <= b)%Z -> Zrange a b = a :: Zrange (a + 1) b.
Proof.
  intros H. unfold Zrange.
  replace (Z.to_nat (b - a + 1)) with (S (Z.to_nat (b - (a + 1) + 1))) by lia.
  reflexivity.
Qed.


Lemma tile_product_integers (xs ys : list Z) (zoom : Z) :
  tile_product (integers xs) (integers ys) zoom
  = flat_map (fun x => map (fun y => {| tc_x := Fin (IZR x);
                                        tc_y := Fin (IZR y);
                                        tc_zoom := zoom |}) ys) xs.
Proof.
  unfold tile_product, integers.
  induction xs as [| x xs IH]; simpl; [reflexivity |].
  rewrite IH, map_map. reflexivity.
Qed.

Section IntegerCounting.

Context {rounding : Rounding}.

Variable exact_on : Z -> Prop.

Hypothesis rnd_exact_on : forall n : Z, exact_on n -> rnd (IZR n) = Fin (IZR n).

Local Open Scope num_scope.

(** The loop, started on an array that ends with the integer counter [c],
    appends [c + 1 .. b] and stops; [b - c] iterations are enough. *)
Lemma inclusiveRange_loop_counts (n : nat) :
  forall (fuel : nat) (prefix : list number) (c b : Z),
    (b - c = Z.of_nat n)%Z -> (n <= fuel)%nat ->
    (forall z : Z, (c < z <= b)%Z -> exact_on z) ->
    inclusiveRange_loop fuel (prefix ++ [Fin (IZR c)]) (Fin (IZR c)) (Fin (IZR b))
    = Some (prefix ++ integers (Zrange c b)).
Proof.
  induction n as [| n IH]; intros fuel prefix c b Hn Hfuel Hok.
  - assert (b = c) by lia. subst b.
    replace (Zrange c c) with [c]
      by (unfold Zrange; replace (c - c + 1)%Z with 1%Z by lia; reflexivity).
    destruct fuel; simpl; rewrite last_last, nltb_irrefl; reflexivity.
  - destruct fuel as [| fuel]; [lia |].
    cbn [inclusiveRange_loop nadd]. rewrite last_last.
    rewrite nltb_Fin_true by (apply IZR_lt; lia).
    rewrite <- plus_IZR, rnd_exact_on by (apply Hok; lia).
    rewrite (IH fuel (prefix ++ [Fin (IZR c)]) (c + 1)%Z b)
      by (try lia; intros z Hz; apply Hok; lia).
    rewrite (Zrange_cons c b) by lia. simpl.
    rewrite <- app_assoc. reflexivity.
Qed.

Lemma inclusiveRange_counts (fuel : nat) (a b : Z) :
  (a <= b)%Z -> (Z.to_nat (b - a) <= fuel)%nat ->
  (forall z : Z, (a < z <= b)%Z -> exact_on z) ->
  inclusiveRange fuel (Fin (IZR a)) (Fin (IZR b)) = Some (integers (Zrange a b)).
Proof.
  intros Hab Hfuel Hok. unfold inclusiveRange.
  apply (inclusiveRange_loop_counts (Z.to_nat (b - a)) fuel [] a b); [lia | lia | exact Hok].
Qed.

Lemma tileCoordinates_counts
  (extent : LatLongBounds) (zoom x0 y0 x1 y1 : Z) (fuel : nat) :
  tileCoordinate (topLeft extent) zoom
  = {| tc_x := Fin (IZR x0); tc_y := Fin (IZR y0); tc_zoom := zoom |} ->
  tileCoordinate (bottomRight extent) zoom
  = {| tc_x := Fin (IZR x1); tc_y := Fin (IZR y1); tc_zoom := zoom |} ->
  (x0 <= x1)%Z -> (y0 <= y1)%Z ->
  (forall z : Z, (x0 < z <= x1)%Z -> exact_on z) ->
  (forall z : Z, (y0 < z <= y1)%Z -> exact_on z) ->
  (Nat.max (Z.to_nat (x1 - x0)) (Z.to_nat (y1 - y0)) <= fuel)%nat ->
  tileCoordinates fuel extent zoom = Some (cartesian_tiles x0 x1 y0 y1 zoom).
Proof.
  intros Htl Hbr Hx Hy Hokx Hoky Hfuel.
  unfold tileCoordinates. rewrite Htl, Hbr; cbn [tc_x tc_y].
  rewrite inclusiveRange_counts by (try lia; assumption).
  rewrite inclusiveRange_counts by (try lia; assumption).
  rewrite tile_product_integers. reflexivity.
Qed.

End IntegerCounting.



(** * Saturation of the zoom level

    [googleZoomLevel] lands in [[1, 20]] for every rounding that never
    answers NaN and sends a positive real to a non-negative number or to
    [+Infinity] (both roundings do): a quotient that overflows or
    underflows still gives 20 or 1. *)

Section SaturatingRounding.

Context {rounding : Rounding}.

Hypothesis rnd_not_NaN : forall x : R, rnd x <> NaN.

Hypothesis rnd_positive :
  forall x : R, (0 < x)%R ->
    rnd x = PInf \/ exists r : R, rnd x = Fin r /\ (0 <= r)%R.

Local Open Scope num_scope.

Lemma clamp_zoom_floor (a : number) :
  a <> NaN -> is_zoom_level (clamp (Math_floor a) (Fin 1, Fin 20)).
Proof.
  intros Ha. destruct a as [| | | y]; [now elim Ha | | |].
  - exists 20%Z. split; [| lia]. unfold clamp, ngtb; cbn [Math_floor nltb]. reflexivity.
  - exists 1%Z. split; [| lia]. unfold clamp, ngtb; cbn [Math_floor nltb]. reflexivity.
  - cbn [Math_floor]. unfold clamp, ngtb.
    set (z := Zfloor y).
    destruct (Z_lt_le_dec 20 z) as [H | H].
    + rewrite nltb_Fin_true by (apply IZR_lt in H; lra).
      exists 20%Z. split; [reflexivity | lia].
    + rewrite nltb_Fin_false by (apply IZR_le in H; lra).
      destruct (Z_lt_le_dec z 1) as [H1 | H1].
      * rewrite nltb_Fin_true by (apply IZR_lt in H1; lra).
        exists 1%Z. split; [reflexivity | lia].
      * rewrite nltb_Fin_false by (apply IZR_le in H1; lra).
        exists z. split; [reflexivity | lia].
Qed.

(** [numerator] is the value computed for
    [156543.03392 * Math.cos(loc.latitude * Math.PI / 180)]. *)
Lemma googleZoomLevel_saturates (loc : LatLong) (numerator m : R) :
  lit 156543.03392 * Math_cos (latitude loc * Math_PI / Fin 180)
  = Fin numerator ->
  (0 < numerator)%R -> (0 < m)%R ->
  is_zoom_level (googleZoomLevel loc (Fin m)).
Proof.
  intros Hnum Hk Hm. unfold googleZoomLevel. rewrite Hnum.
  apply clamp_zoom_floor.
  unfold ndiv. destruct (Req_dec_T m 0) as [E | _]; [lra |].
  destruct (rnd_positive (numerator / m)
              ltac:(apply Rdiv_lt_0_compat; assumption)) as [-> | (r & -> & Hr)].
  - discriminate.
  - unfold Math_log2, Rsign.
    destruct (Rlt_dec 0 r); [apply rnd_not_NaN |].
    destruct (Rlt_dec r 0); [lra | discriminate].
Qed.

End SaturatingRounding.

(** * Proofs in real arithmetic *)

Section ExactArithmetic.

#[local] Existing Instance exact.

Local Open Scope num_scope.

(** ** Finite arithmetic *)

Lemma nadd_Fin (x y : R) : Fin x + Fin y = Fin (x + y).
Proof. reflexivity. Qed.

Lemma nsub_Fin (x y : R) : Fin x - Fin y = Fin (x - y).
Proof. reflexivity. Qed.

Lemma nmul_Fin (x y : R) : Fin x * Fin y = Fin (x * y).
Proof. reflexivity. Qed.

Lemma ndiv_Fin (x y : R) : y <> 0%R -> Fin x / Fin y = Fin (x / y).
Proof.
  intros Hy. unfold ndiv. destruct (Req_dec_T y 0) as [E | _]; [contradiction | reflexivity].
Qed.


Lemma Rsign_pos (x : R) : (0 < x)%R -> Rsign x = Pos.
Proof. intros H. unfold Rsign. destruct (Rlt_dec 0 x); [reflexivity | contradiction]. Qed.







(** ** The haversine term *)








(** ** Great-circle distance *)




(** ** Zoom selection *)


Lemma clamp_zoom_in_range (z : Z) :
  (1 <= z <= 20)%Z -> clamp (Fin (IZR z)) (Fin 1, Fin 20) = Fin (IZR z).
Proof.
  intros [H1 H20]. unfold clamp, ngtb.
  apply IZR_le in H1, H20.
  rewrite nltb_Fin_false by lra. rewrite nltb_Fin_false by lra. reflexivity.
Qed.






Lemma chooseZoom_ignores_bottom_latitude_witness :
  chooseZoom {| topLeft := geo 39.75 (-104.96);
                bottomRight := geo 39.74 (-104.94) |} (Fin 400)
  = chooseZoom {| topLeft := geo 39.75 (-104.96);
                  bottomRight := geo (-80) (-104.94) |} (Fin 400).
Proof.
  apply chooseZoom_ignores_bottom_latitude; reflexivity.
Defined.


Lemma ln_2_pos : (0 < ln 2)%R.
Proof. rewrite <- ln_1. apply ln_increasing; lra. Qed.

Lemma log2_pow2 (z : Z) : (ln (powerRZ 2 z) / ln 2 = IZR z)%R.
Proof.
  rewrite powerRZ_Rpower by lra. rewrite ln_Rpower.
  pose proof ln_2_pos. field. lra.
Qed.



(** ** The Mercator projection and its inverse *)












(** ** Tiles *)











(** ** Interior points of a tile, in real arithmetic *)

Lemma weighted_axis_exact (x : Z) (w : R) :
  (0 < w < 1)%R ->
  Math_floor ((Fin w * (Fin (IZR x) * Fin 256)
               + (Fin 1 - Fin w) * ((Fin (IZR x) + Fin 1) * Fin 256))
              / Fin 256)
  = Fin (IZR x).
Proof.
  intros Hw.
  rewrite (nmul_Fin (IZR x) 256), (nadd_Fin (IZR x) 1), (nsub_Fin 1 w).
  rewrite !nmul_Fin, nadd_Fin.
  rewrite ndiv_Fin by lra. cbn [Math_floor]. do 2 f_equal.
  apply Zfloor_eq.
  replace ((w * (IZR x * 256) + (1 - w) * ((IZR x + 1) * 256)) / 256)%R
    with (IZR x + (1 - w))%R by (field; lra).
  lra.
Qed.

(** Without rounding, every pair of weights strictly between 0 and 1 gives
    a pixel of the same tile, for all integer tile indices. *)
Lemma weightedInterior_maps_back_exact (x y zoom : Z) (xWeight yWeight : R) :
  (0 < xWeight < 1)%R -> (0 < yWeight < 1)%R ->
  let tc := {| tc_x := Fin (IZR x); tc_y := Fin (IZR y); tc_zoom := zoom |} in
  pixelToTileCoords (weightedInterior tc (Fin xWeight) (Fin yWeight)) = tc.
Proof.
  intros Hwx Hwy tc.
  unfold pixelToTileCoords, weightedInterior, tileToPixelCoords, tc,
    GOOGLE_TILE_SIZE;
    cbn [tc_x tc_y tc_zoom pc_x pc_y pc_zoom pb_topLeft pb_bottomRight].
  rewrite (weighted_axis_exact x xWeight Hwx).
  rewrite (weighted_axis_exact y yWeight Hwy).
  reflexivity.
Qed.

End ExactArithmetic.

(** * Proofs in binary64 arithmetic *)

Section Binary64Arithmetic.

#[local] Existing Instance binary64.

Local Open Scope R_scope.

Lemma Rabs_le_inv (a b : R) : Rabs a <= b -> - b <= a <= b.
Proof. unfold Rabs. destruct (Rcase_abs a); lra. Qed.

(** ** Powers of two *)

Lemma pow2_pos (e : Z) : 0 < powerRZ 2 e.
Proof. apply powerRZ_lt. lra. Qed.

Lemma pow2_add (a b : Z) : powerRZ 2 (a + b) = powerRZ 2 a * powerRZ 2 b.
Proof. apply powerRZ_add. lra. Qed.

Lemma pow2_ge_1 (n : Z) : (0 <= n)%Z -> 1 <= powerRZ 2 n.
Proof.
  intros Hn. rewrite <- (Z2Nat.id n Hn), <- pow_powerRZ.
  apply pow_R1_Rle. lra.
Qed.

Lemma pow2_le (a b : Z) : (a <= b)%Z -> powerRZ 2 a <= powerRZ 2 b.
Proof.
  intros Hab. replace b with (a + (b - a))%Z by lia. rewrite pow2_add.
  pose proof (pow2_pos a). pose proof (pow2_ge_1 (b - a) ltac:(lia)). nra.
Qed.

Lemma pow2_lt_inv (a b : Z) : powerRZ 2 a < powerRZ 2 b -> (a < b)%Z.
Proof.
  intros H. destruct (Z_lt_le_dec a b) as [Hlt | Hle]; [exact Hlt |].
  apply pow2_le in Hle. lra.
Qed.

Lemma pow2_IZR (n : Z) : (0 <= n)%Z -> powerRZ 2 n = IZR (2 ^ n).
Proof.
  intros Hn. rewrite <- (Z2Nat.id n Hn).
  now rewrite <- pow_powerRZ, <- pow_IZR.
Qed.

(** ** The binary exponent *)

Lemma ilog2_spec (x : R) :
  0 < x -> powerRZ 2 (ilog2 x) <= x < powerRZ 2 (ilog2 x + 1).
Proof.
  intros Hx. unfold ilog2.
  pose proof (Zfloor_bound (ln x / ln 2)) as [Hlo Hhi].
  set (e := Zfloor (ln x / ln 2)) in *.
  assert (Hln2 : 0 < ln 2) by (rewrite <- ln_1; apply ln_increasing; lra).
  assert (E : ln x = ln x / ln 2 * ln 2) by (field; lra).
  rewrite !powerRZ_Rpower by lra. unfold Rpower. rewrite plus_IZR.
  split.
  - apply Rle_trans with (exp (ln x)); [| rewrite exp_ln by assumption; lra].
    destruct (Req_dec (IZR e * ln 2) (ln x)) as [-> | Hne]; [lra |].
    apply Rlt_le, exp_increasing. nra.
  - apply Rle_lt_trans with (exp (ln x)); [rewrite exp_ln by assumption; lra |].
    apply exp_increasing. nra.
Qed.

Lemma ilog2_unique (x : R) (e : Z) :
  powerRZ 2 e <= x < powerRZ 2 (e + 1) -> ilog2 x = e.
Proof.
  intros [Hlo Hhi].
  assert (Hx : 0 < x) by (pose proof (pow2_pos e); lra).
  destruct (ilog2_spec x Hx) as [Hlo' Hhi'].
  assert (e < ilog2 x + 1)%Z by (apply pow2_lt_inv; lra).
  assert (ilog2 x < e + 1)%Z by (apply pow2_lt_inv; lra).
  lia.
Qed.

(** ** Rounding to an integer *)

Lemma round_half_even_error (t : R) :
  Rabs (IZR (round_half_even t) - t) <= 1 / 2.
Proof.
  unfold round_half_even.
  pose proof (Zfloor_bound t) as [Hlo Hhi].
  destruct (total_order_T (t - IZR (Zfloor t)) (1 / 2)) as [[H | H] | H].
  - apply Rabs_le. lra.
  - destruct (Z.even (Zfloor t)); [| rewrite plus_IZR]; apply Rabs_le; lra.
  - rewrite plus_IZR. apply Rabs_le. lra.
Qed.

Lemma round_half_even_nonneg (t : R) : 0 <= t -> (0 <= round_half_even t)%Z.
Proof.
  intros Ht. unfold round_half_even.
  assert (H0 : (0 <= Zfloor t)%Z) by (apply Zfloor_lub; simpl; lra).
  destruct (total_order_T (t - IZR (Zfloor t)) (1 / 2)) as [[H | H] | H];
    [| destruct (Z.even (Zfloor t)) |]; lia.
Qed.

Lemma round_half_even_integer (k : Z) : round_half_even (IZR k) = k.
Proof.
  unfold round_half_even. rewrite ZfloorZ.
  destruct (total_order_T (IZR k - IZR k) (1 / 2)) as [[H | H] | H];
    [reflexivity | lra | lra].
Qed.

(** ** Rounding to a double *)

(** A non-negative real below [2^k] is rounded to a non-negative double at
    distance at most [2^(k-54)] (half a unit in the last place). *)
Lemma round64_error (x : R) (k : Z) :
  (-1021 <= k <= 1023)%Z -> 0 <= x < powerRZ 2 k ->
  exists r : R,
    round64 x = Fin r /\ 0 <= r
    /\ - powerRZ 2 (k - 54) <= r - x <= powerRZ 2 (k - 54).
Proof.
  intros Hk [Hx0 Hxk]. unfold round64.
  destruct (Req_dec_T x 0) as [-> | Hne].
  - exists 0. split; [reflexivity |]. split; [lra |].
    pose proof (pow2_pos (k - 54)). lra.
  - assert (Hx : 0 < x) by lra.
    assert (Hq : (quantum x <= k - 53)%Z).
    { unfold quantum. rewrite Rabs_pos_eq by lra.
      destruct (ilog2_spec x Hx) as [Hlo _].
      assert (ilog2 x < k)%Z by (apply pow2_lt_inv; lra). lia. }
    set (q := quantum x) in *. set (u := powerRZ 2 q).
    assert (Hu : 0 < u) by apply pow2_pos.
    assert (Huk : u <= powerRZ 2 (k - 53)) by (apply pow2_le; exact Hq).
    assert (Hhalf : powerRZ 2 (k - 53) = 2 * powerRZ 2 (k - 54)).
    { replace (k - 53)%Z with (1 + (k - 54))%Z by lia.
      rewrite pow2_add. simpl. lra. }
    pose proof (round_half_even_error (x / u)) as Herr.
    pose proof (round_half_even_nonneg (x / u)
                  ltac:(apply Rlt_le, Rdiv_lt_0_compat; assumption)) as Hnn.
    set (m := round_half_even (x / u)) in *.
    apply IZR_le in Hnn.
    assert (Hdist : - powerRZ 2 (k - 54) <= IZR m * u - x <= powerRZ 2 (k - 54)).
    { apply Rabs_le_inv in Herr.
      replace (IZR m * u - x) with ((IZR m - x / u) * u) by (field; lra).
      nra. }
    assert (Hr0 : 0 <= IZR m * u) by nra.
    assert (Hsmall : IZR m * u < powerRZ 2 1024).
    { pose proof (pow2_le k 1023 ltac:(lia)).
      pose proof (pow2_le (k - 54) 1023 ltac:(lia)).
      replace 1024%Z with (1 + 1023)%Z by lia. rewrite pow2_add.
      simpl (powerRZ 2 1). lra. }
    destruct (Rle_dec (powerRZ 2 1024) (Rabs (IZR m * u))) as [Hov | _].
    + rewrite Rabs_pos_eq in Hov by assumption. lra.
    + exists (IZR m * u). auto.
Qed.

(** A real of the form [m * 2^e] with [|m| < 2^53] and [-1074 <= e], below
    2^1024 in absolute value, is a double: rounding leaves it alone. *)
Lemma round64_double (m e : Z) :
  (Z.abs m < 2 ^ 53)%Z -> (-1074 <= e)%Z ->
  Rabs (IZR m * powerRZ 2 e) < powerRZ 2 1024 ->
  round64 (IZR m * powerRZ 2 e) = Fin (IZR m * powerRZ 2 e).
Proof.
  intros Hm He Hfin. unfold round64.
  pose proof (pow2_pos e) as Hpe.
  destruct (Req_dec_T (IZR m * powerRZ 2 e) 0) as [E | Hne].
  - now rewrite E.
  - assert (Hm0 : m <> 0%Z) by (intros ->; apply Hne; lra).
    set (x := IZR m * powerRZ 2 e) in *.
    assert (Habs : Rabs x = IZR (Z.abs m) * powerRZ 2 e).
    { unfold x. rewrite Rabs_mult, (Rabs_pos_eq (powerRZ 2 e)) by lra.
      now rewrite <- abs_IZR. }
    assert (Hlt : Rabs x < powerRZ 2 (53 + e)).
    { rewrite Habs, pow2_add, (pow2_IZR 53) by lia.
      apply Rmult_lt_compat_r; [exact Hpe |]. apply IZR_lt. exact Hm. }
    assert (Hpos : 0 < Rabs x).
    { rewrite Habs. apply Rmult_lt_0_compat; [| exact Hpe]. apply IZR_lt. lia. }
    assert (Hq : (quantum x <= e)%Z).
    { unfold quantum. destruct (ilog2_spec (Rabs x) Hpos) as [Hlo _].
      assert (ilog2 (Rabs x) < 53 + e)%Z by (apply pow2_lt_inv; lra). lia. }
    set (q := quantum x) in *.
    assert (Ex : x / powerRZ 2 q = IZR (m * 2 ^ (e - q))).
    { rewrite mult_IZR, <- pow2_IZR by lia. unfold x.
      replace e with (q + (e - q))%Z at 1 by lia. rewrite pow2_add.
      pose proof (pow2_pos q). field. lra. }
    rewrite Ex, round_half_even_integer, <- Ex.
    replace (x / powerRZ 2 q * powerRZ 2 q) with x
      by (pose proof (pow2_pos q); field; lra).
    destruct (Rle_dec (powerRZ 2 1024) (Rabs x)) as [Hov | _]; [lra | reflexivity].
Qed.

Lemma round64_representable (m e : Z) :
  (Z.abs m < 2 ^ 53)%Z -> (-1074 <= e <= 970)%Z ->
  round64 (IZR m * powerRZ 2 e) = Fin (IZR m * powerRZ 2 e).
Proof.
  intros Hm He. apply round64_double; [exact Hm | lia |].
  pose proof (pow2_pos e) as Hpe.
  rewrite Rabs_mult, (Rabs_pos_eq (powerRZ 2 e)), <- abs_IZR by lra.
  apply Rlt_le_trans with (powerRZ 2 (53 + e)); [| apply pow2_le; lia].
  rewrite pow2_add, (pow2_IZR 53) by lia.
  apply Rmult_lt_compat_r; [exact Hpe |]. apply IZR_lt. exact Hm.
Qed.

Lemma round64_integer (n : Z) :
  (Z.abs n < 2 ^ 53)%Z -> round64 (IZR n) = Fin (IZR n).
Proof.
  intros Hn. pose proof (round64_representable n 0 Hn ltac:(lia)) as H.
  simpl in H. now rewrite Rmult_1_r in H.
Qed.

(** ** The arithmetic of the module, in binary64 *)

Lemma nadd_b64 (a b : R) : (Fin a + Fin b)%num = round64 (a + b).
Proof. reflexivity. Qed.

Lemma nsub_b64 (a b : R) : (Fin a - Fin b)%num = round64 (a - b).
Proof. reflexivity. Qed.

Lemma nmul_b64 (a b : R) : (Fin a * Fin b)%num = round64 (a * b).
Proof. reflexivity. Qed.

Lemma ndiv_b64 (a b : R) : b <> 0 -> (Fin a / Fin b)%num = round64 (a / b).
Proof.
  intros Hb. unfold ndiv. destruct (Req_dec_T b 0); [contradiction | reflexivity].
Qed.

Lemma pow2_numeral (n : Z) (v : Z) :
  (0 <= n)%Z -> (2 ^ n)%Z = v -> powerRZ 2 n = IZR v.
Proof. intros Hn <-. now apply pow2_IZR. Qed.

Lemma pow2_neg_numeral (n : Z) (v : Z) :
  (0 <= n)%Z -> (2 ^ n)%Z = v -> powerRZ 2 (- n) = / IZR v.
Proof. intros Hn <-. rewrite powerRZ_neg'. f_equal. now apply pow2_IZR. Qed.

Lemma scaled_error (w d e : R) :
  0 <= w <= 1 -> - e <= d <= e -> - e <= w * d <= e.
Proof. intros Hw Hd. nra. Qed.

Lemma product_error (d b e B : R) :
  - e <= d <= e -> 0 <= b <= B -> - (e * B) <= d * b <= e * B.
Proof. intros Hd Hb. nra. Qed.

(** One axis of [pixelToTileCoords (weightedInterior tc w _)]: the weighted
    combination of the two corners of tile [x] falls back into tile [x]. *)
Lemma weighted_axis_binary64 (x : Z) (w : R) :
  (0 <= x < 2 ^ 20)%Z -> 0.000001 <= w <= 0.999999 ->
  Math_floor ((Fin w * (Fin (IZR x) * Fin 256)
               + (Fin 1 - Fin w) * ((Fin (IZR x) + Fin 1) * Fin 256))
              / Fin 256)%num
  = Fin (IZR x).
Proof.
  intros [Hx0 Hx1] Hw.
  apply IZR_le in Hx0. assert (HxM : IZR x <= 1048575) by (apply IZR_le; lia).
  set (X := IZR x) in *.
  pose proof (pow2_numeral 29 _ ltac:(lia) eq_refl) as P29.
  pose proof (pow2_numeral 30 _ ltac:(lia) eq_refl) as P30.
  pose proof (pow2_numeral 22 _ ltac:(lia) eq_refl) as P22.
  pose proof (pow2_numeral 0 _ ltac:(lia) eq_refl) as P0.
  pose proof (pow2_neg_numeral 25 _ ltac:(lia) eq_refl) as E25.
  pose proof (pow2_neg_numeral 24 _ ltac:(lia) eq_refl) as E24.
  pose proof (pow2_neg_numeral 32 _ ltac:(lia) eq_refl) as E32.
  pose proof (pow2_neg_numeral 54 _ ltac:(lia) eq_refl) as E54.
  (* the two corners *)
  destruct (round64_error (X * 256) 29 ltac:(lia) ltac:(lra))
    as (a & Ea & Ha0 & Ha).
  destruct (round64_error (X + 1) 29 ltac:(lia) ltac:(lra))
    as (x1 & Ex1 & Hx10 & Hx1').
  change (29 - 54)%Z with (Z.opp 25) in Ha, Hx1'. rewrite E25 in Ha, Hx1'.
  destruct (round64_error (x1 * 256) 29 ltac:(lia) ltac:(lra))
    as (b & Eb & Hb0 & Hb).
  change (29 - 54)%Z with (Z.opp 25) in Hb. rewrite E25 in Hb.
  (* the weights *)
  destruct (round64_error (1 - w) 0 ltac:(lia) ltac:(lra))
    as (om & Eom & Hom0 & Hom).
  change (0 - 54)%Z with (Z.opp 54) in Hom. rewrite E54 in Hom.
  (* the two products and their sum *)
  assert (Hwa : 0 <= w * a <= a) by (clear - Hw Ha0; nra).
  destruct (round64_error (w * a) 29 ltac:(lia) ltac:(lra))
    as (t1 & Et1 & Ht10 & Ht1).
  change (29 - 54)%Z with (Z.opp 25) in Ht1. rewrite E25 in Ht1.
  assert (Homb : 0 <= om * b <= 268435457).
  { assert (Hb29 : 0 <= b <= 268435456 + 1 / 2) by lra.
    assert (Hom1 : 0 <= om <= 1) by lra.
    clear - Hb29 Hom1. nra. }
  destruct (round64_error (om * b) 29 ltac:(lia) ltac:(lra))
    as (t2 & Et2 & Ht20 & Ht2).
  change (29 - 54)%Z with (Z.opp 25) in Ht2. rewrite E25 in Ht2.
  destruct (round64_error (t1 + t2) 30 ltac:(lia) ltac:(lra))
    as (p & Ep & Hp0 & Hp).
  change (30 - 54)%Z with (Z.opp 24) in Hp. rewrite E24 in Hp.
  destruct (round64_error (p / 256) 22 ltac:(lia) ltac:(lra))
    as (q & Eq & Hq0 & Hq).
  change (22 - 54)%Z with (Z.opp 32) in Hq. rewrite E32 in Hq.
  rewrite (nmul_b64 X 256), Ea, (nadd_b64 X 1), Ex1, (nmul_b64 x1 256), Eb.
  rewrite (nsub_b64 1 w), Eom, (nmul_b64 w a), Et1, (nmul_b64 om b), Et2.
  rewrite (nadd_b64 t1 t2), Ep, ndiv_b64, Eq by lra.
  cbn [Math_floor]. unfold X at 1. do 2 f_equal. apply Zfloor_eq. fold X.
  (* the exact value of the pixel is 256 * (X + 1 - w) *)
  pose proof (scaled_error w (a - X * 256) (/ IZR (2 ^ 25))
                ltac:(lra) Ha) as Hwa'.
  assert (Ewa : w * (a - X * 256) = w * a - 256 * (w * X)) by ring.
  assert (Hb' : - (257 * / IZR (2 ^ 25)) <= b - 256 * (X + 1)
                <= 257 * / IZR (2 ^ 25)) by lra.
  pose proof (scaled_error (1 - w) (b - 256 * (X + 1)) (257 * / IZR (2 ^ 25))
                ltac:(lra) Hb') as Hwb.
  pose proof (product_error (om - (1 - w)) b (/ IZR (2 ^ 54)) (IZR (2 ^ 29))
                Hom ltac:(lra)) as Homb'.
  assert (Eob : om * b - (1 - w) * (256 * (X + 1))
                = (om - (1 - w)) * b + (1 - w) * (b - 256 * (X + 1))) by ring.
  assert (Epx : 256 * (X + 1 - w)
                = 256 * (w * X) + (1 - w) * (256 * (X + 1))) by ring.
  set (wX := w * X) in *. set (wa := w * a) in *. set (ob := om * b) in *.
  set (d1 := (om - (1 - w)) * b) in *.
  set (d2 := (1 - w) * (b - 256 * (X + 1))) in *.
  set (d3 := (1 - w) * (256 * (X + 1))) in *.
  set (d4 := w * (a - X * 256)) in *.
  lra.
Qed.

(** C2 (as amended): in binary64 arithmetic, for every tile with integer
    indices in [[0, 2^20)] and every pair of weights in [[0.001, 0.999]] (and
    even in [[0.000001, 0.999999]]), the pixel
    [weight * topLeft + (1 - weight) * bottomRight] maps back to exactly
    that tile under [pixelToTileCoords]. *)
Theorem weightedInterior_maps_back (x y zoom : Z) (xWeight yWeight : R) :
  (0 <= x < 2 ^ 20)%Z -> (0 <= y < 2 ^ 20)%Z ->
  0.000001 <= xWeight <= 0.999999 -> 0.000001 <= yWeight <= 0.999999 ->
  let tc := {| tc_x := Fin (IZR x); tc_y := Fin (IZR y); tc_zoom := zoom |} in
  pixelToTileCoords (weightedInterior tc (Fin xWeight) (Fin yWeight)) = tc.
Proof.
  intros Hx Hy Hwx Hwy tc.
  unfold pixelToTileCoords, weightedInterior, tileToPixelCoords, tc,
    GOOGLE_TILE_SIZE;
    cbn [tc_x tc_y tc_zoom pc_x pc_y pc_zoom pb_topLeft pb_bottomRight].
  rewrite (weighted_axis_binary64 x xWeight Hx Hwx).
  rewrite (weighted_axis_binary64 y yWeight Hy Hwy).
  reflexivity.
Qed.

Lemma weightedInterior_maps_back_witness :
  let tc := {| tc_x := Fin (IZR 2); tc_y := Fin (IZR 5); tc_zoom := 3 |} in
  pixelToTileCoords (weightedInterior tc (Fin 0.001) (Fin 0.999)) = tc.
Proof.
  apply weightedInterior_maps_back; [lia | lia | lra | lra].
Defined.

(** ** A weight too close to 0 *)

Lemma round64_zero (x : R) : x = 0 -> round64 x = Fin 0.
Proof.
  intros ->. unfold round64. destruct (Req_dec_T 0 0) as [_ | N]; [reflexivity | now elim N].
Qed.

Lemma round_half_even_up (t : R) (f : Z) :
  IZR f + 1 / 2 < t < IZR f + 1 -> round_half_even t = (f + 1)%Z.
Proof.
  intros Ht. unfold round_half_even.
  rewrite (Zfloor_eq f t) by lra.
  destruct (total_order_T (t - IZR f) (1 / 2)) as [[H | H] | H];
    [lra | lra | reflexivity].
Qed.

(** [1 - 2^-60] is not a double: it lies between [1 - 2^-53] and [1], and
    is rounded to [1]. *)
Lemma round64_below_one : round64 (1 - powerRZ 2 (-60)) = Fin 1.
Proof.
  pose proof (pow2_neg_numeral 60 _ ltac:(lia) eq_refl) as E60.
  pose proof (pow2_neg_numeral 53 _ ltac:(lia) eq_refl) as E53.
  pose proof (pow2_neg_numeral 1 _ ltac:(lia) eq_refl) as E1.
  pose proof (pow2_numeral 0 _ ltac:(lia) eq_refl) as P0.
  change (Z.opp 60) with (-60)%Z in E60. change (Z.opp 53) with (-53)%Z in E53.
  change (Z.opp 1) with (-1)%Z in E1.
  set (x := 1 - powerRZ 2 (-60)).
  assert (Hx : 1 / 2 <= x < 1) by (unfold x; rewrite E60; lra).
  assert (Hq : quantum x = (-53)%Z).
  { unfold quantum. rewrite Rabs_pos_eq by lra.
    rewrite (ilog2_unique x (-1)); [reflexivity |].
    change (-1 + 1)%Z with 0%Z. rewrite E1, P0. lra. }
  assert (Hm : round_half_even (x / powerRZ 2 (-53)) = (2 ^ 53)%Z).
  { assert (Et : x / powerRZ 2 (-53) = IZR (2 ^ 53) - / IZR (2 ^ 7)).
    { unfold x, Rdiv. change (-53)%Z with (Z.opp 53).
      rewrite powerRZ_neg', Rinv_inv.
      rewrite Rmult_minus_distr_r, Rmult_1_l, <- pow2_add.
      change (-60 + 53)%Z with (Z.opp 7).
      now rewrite (pow2_numeral 53 _ ltac:(lia) eq_refl),
                  (pow2_neg_numeral 7 _ ltac:(lia) eq_refl). }
    rewrite Et. rewrite (round_half_even_up _ (2 ^ 53 - 1)); [reflexivity |].
    rewrite minus_IZR. lra. }
  unfold round64. destruct (Req_dec_T x 0) as [E | _]; [lra |].
  rewrite Hq, Hm.
  assert (Er : IZR (2 ^ 53) * powerRZ 2 (-53) = 1) by (rewrite E53; lra).
  rewrite Er.
  destruct (Rle_dec (powerRZ 2 1024) (Rabs 1)) as [Hov | _]; [| reflexivity].
  rewrite Rabs_R1 in Hov. pose proof (pow2_ge_1 1024 ltac:(lia)) as H1.
  pose proof (pow2_le 1 1024 ltac:(lia)) as H2. simpl (powerRZ 2 1) in H2. lra.
Qed.

(** C2 (as stated) fails in binary64 arithmetic: for the tile (0, 0) and
    the weight [2^-60] (a double strictly between 0 and 1) on both axes, the
    pixel is the bottom-right corner itself and belongs to the tile (1, 1). *)
Lemma weightedInterior_tiny_weight :
  let tc := {| tc_x := Fin (IZR 0); tc_y := Fin (IZR 0); tc_zoom := 1 |} in
  let w := powerRZ 2 (-60) in
  0 < w < 1
  /\ round64 w = Fin w
  /\ pixelToTileCoords (weightedInterior tc (Fin w) (Fin w))
     = {| tc_x := Fin (IZR 1); tc_y := Fin (IZR 1); tc_zoom := 1 |}
  /\ pixelToTileCoords (weightedInterior tc (Fin w) (Fin w)) <> tc.
Proof.
  intros tc w.
  pose proof (pow2_neg_numeral 60 _ ltac:(lia) eq_refl) as E60.
  change (Z.opp 60) with (-60)%Z in E60.
  assert (Hw : 0 < w < 1) by (unfold w; rewrite E60; lra).
  assert (Haxis : Math_floor ((Fin w * (Fin 0 * Fin 256)
                               + (Fin 1 - Fin w) * ((Fin 0 + Fin 1) * Fin 256))
                              / Fin 256)%num = Fin 1).
  { rewrite (nmul_b64 0 256), (round64_zero (0 * 256)) by lra.
    rewrite (nadd_b64 0 1). replace (0 + 1) with 1 by lra.
    rewrite (round64_integer 1) by (vm_compute; reflexivity).
    rewrite (nmul_b64 1 256). replace (1 * 256) with 256 by lra.
    rewrite (round64_integer 256) by (vm_compute; reflexivity).
    rewrite (nmul_b64 w 0), (round64_zero (w * 0)) by lra.
    rewrite (nsub_b64 1 w). unfold w. rewrite round64_below_one.
    rewrite (nmul_b64 1 256). replace (1 * 256) with 256 by lra.
    rewrite (round64_integer 256) by (vm_compute; reflexivity).
    rewrite (nadd_b64 0 256). replace (0 + 256) with 256 by lra.
    rewrite (round64_integer 256) by (vm_compute; reflexivity).
    rewrite ndiv_b64 by lra. replace (256 / 256) with 1 by lra.
    rewrite (round64_integer 1) by (vm_compute; reflexivity).
    cbn [Math_floor]. now rewrite ZfloorZ. }
  assert (E : pixelToTileCoords (weightedInterior tc (Fin w) (Fin w))
              = {| tc_x := Fin (IZR 1); tc_y := Fin (IZR 1); tc_zoom := 1 |}).
  { unfold pixelToTileCoords, weightedInterior, tileToPixelCoords, tc,
      GOOGLE_TILE_SIZE;
      cbn [tc_x tc_y tc_zoom pc_x pc_y pc_zoom pb_topLeft pb_bottomRight].
    now rewrite Haxis. }
  split; [exact Hw |].
  split.
  - unfold w. pose proof (round64_representable 1 (-60)
                            ltac:(vm_compute; reflexivity) ltac:(lia)) as H.
    now rewrite Rmult_1_l in H.
  - split; [exact E |]. rewrite E. unfold tc. intros [= H]. lra.
Qed.

(** ** Enumerating tiles in binary64 *)

(** The statement of C4 also holds in binary64 arithmetic as long as the
    tile indices are below 2^53 in absolute value, where [curr++] is exact
    (from 2^53 on, [curr++] no longer changes [curr]). *)
Lemma tileCoordinates_cartesian_product_binary64
  (extent : LatLongBounds) (zoom x0 y0 x1 y1 : Z) (fuel : nat) :
  tileCoordinate (topLeft extent) zoom
  = {| tc_x := Fin (IZR x0); tc_y := Fin (IZR y0); tc_zoom := zoom |} ->
  tileCoordinate (bottomRight extent) zoom
  = {| tc_x := Fin (IZR x1); tc_y := Fin (IZR y1); tc_zoom := zoom |} ->
  (- 2 ^ 53 <= x0 <= x1)%Z -> (x1 < 2 ^ 53)%Z ->
  (- 2 ^ 53 <= y0 <= y1)%Z -> (y1 < 2 ^ 53)%Z ->
  (Nat.max (Z.to_nat (x1 - x0)) (Z.to_nat (y1 - y0)) <= fuel)%nat ->
  tileCoordinates fuel extent zoom = Some (cartesian_tiles x0 x1 y0 y1 zoom).
Proof.
  intros Htl Hbr Hx Hx1 Hy Hy1 Hfuel.
  apply (tileCoordinates_counts (fun z => (Z.abs z < 2 ^ 53)%Z)); try lia; auto.
  intros n Hn. apply round64_integer. exact Hn.
Qed.

(** ** Zoom selection in binary64 *)

Lemma round64_not_NaN (x : R) : round64 x <> NaN.
Proof.
  unfold round64. destruct (Req_dec_T x 0); [discriminate |].
  destruct (Rle_dec _ _); [destruct (Rlt_dec _ _) |]; discriminate.
Qed.

Lemma round64_positive (x : R) :
  0 < x -> round64 x = PInf \/ exists r : R, round64 x = Fin r /\ 0 <= r.
Proof.
  intros Hx. unfold round64.
  destruct (Req_dec_T x 0) as [E | _]; [lra |].
  pose proof (pow2_pos (quantum x)) as Hu.
  pose proof (round_half_even_nonneg (x / powerRZ 2 (quantum x))
                ltac:(apply Rlt_le, Rdiv_lt_0_compat; assumption)) as Hm.
  apply IZR_le in Hm.
  assert (Hr : 0 <= IZR (round_half_even (x / powerRZ 2 (quantum x)))
                    * powerRZ 2 (quantum x)) by nra.
  destruct (Rle_dec _ _) as [_ | _].
  - left. destruct (Rlt_dec _ 0); [lra | reflexivity].
  - right. eexists. split; [reflexivity | exact Hr].
Qed.

(** The amended statement of C5 in binary64 arithmetic, overflow and
    underflow of the quotient included. *)
Lemma googleZoomLevel_saturates_binary64 (loc : LatLong) (numerator m : R) :
  (lit 156543.03392 * Math_cos (latitude loc * Math_PI / Fin 180))%num
  = Fin numerator ->
  0 < numerator -> 0 < m ->
  is_zoom_level (googleZoomLevel loc (Fin m)).
Proof.
  apply googleZoomLevel_saturates; [exact round64_not_NaN | exact round64_positive].
Qed.

(** What [round64] returns, when finite and not zero, is a double. *)
Lemma round64_output (x r : R) :
  round64 x = Fin r -> r <> 0 ->
  Rabs r < powerRZ 2 1024
  /\ exists m e : Z,
       r = IZR m * powerRZ 2 e /\ (Z.abs m < 2 ^ 53)%Z /\ (-1074 <= e)%Z.
Proof.
  unfold round64. destruct (Req_dec_T x 0) as [E | Hx].
  { intros [= <-] N. now elim N. }
  set (q := quantum x). set (m0 := round_half_even (x / powerRZ 2 q)).
  destruct (Rle_dec _ _) as [_ | Hfin]; [destruct (Rlt_dec _ _); discriminate |].
  intros [= <-] Hr. split; [lra |].
  pose proof (pow2_pos q) as Hu.
  assert (Hq : (-1074 <= q)%Z) by (unfold q, quantum; lia).
  assert (Hbound : Rabs (x / powerRZ 2 q) < IZR (2 ^ 53)).
  { assert (Hpos : 0 < Rabs x) by (apply Rabs_pos_lt; exact Hx).
    destruct (ilog2_spec (Rabs x) Hpos) as [_ Hhi].
    assert (Hle : powerRZ 2 (ilog2 (Rabs x) + 1) <= powerRZ 2 (53 + q))
      by (apply pow2_le; unfold q, quantum; lia).
    rewrite (pow2_add 53 q), (pow2_IZR 53) in Hle by lia.
    unfold Rdiv. rewrite Rabs_mult, Rabs_inv, (Rabs_pos_eq (powerRZ 2 q)) by lra.
    apply Rmult_lt_reg_r with (powerRZ 2 q); [exact Hu |].
    rewrite Rmult_assoc, Rinv_l by lra. lra. }
  assert (Hm0 : (Z.abs m0 <= 2 ^ 53)%Z).
  { pose proof (round_half_even_error (x / powerRZ 2 q)) as Herr. fold m0 in Herr.
    assert (Hlt : Rabs (IZR m0) < IZR (2 ^ 53 + 1)).
    { rewrite plus_IZR.
      apply Rabs_le_inv in Herr. apply Rabs_def2 in Hbound.
      apply Rabs_def1; lra. }
    rewrite <- abs_IZR in Hlt. apply lt_IZR in Hlt. lia. }
  destruct (Z.eq_dec (Z.abs m0) (2 ^ 53)) as [Heq | Hne].
  - assert (Hcases : m0 = (2 * 2 ^ 52)%Z \/ m0 = (2 * - 2 ^ 52)%Z) by lia.
    destruct Hcases as [-> | ->].
    + exists (2 ^ 52)%Z, (1 + q)%Z. split; [| split; [reflexivity | lia]].
      rewrite mult_IZR, pow2_add. simpl (powerRZ 2 1). ring.
    + exists (- 2 ^ 52)%Z, (1 + q)%Z. split; [| split; [reflexivity | lia]].
      rewrite mult_IZR, pow2_add. simpl (powerRZ 2 1). ring.
  - exists m0, q. split; [reflexivity | split; lia].
Qed.

Lemma nmul_output (a b : number) (k : R) :
  (a * b)%num = Fin k -> exists y : R, round64 y = Fin k.
Proof.
  destruct a as [| | | x], b as [| | | y]; cbn [nmul]; try discriminate.
  - destruct (Rsign y); discriminate.
  - destruct (Rsign y); discriminate.
  - destruct (Rsign x); discriminate.
  - destruct (Rsign x); discriminate.
  - intros H. exists (x * y). exact H.
Qed.

(** The statement of C3 in binary64 arithmetic: when the value [k] computed
    for [156543.03392 * Math.cos(lat * Math.PI / 180)] is at least 2^-1000
    in absolute value, [k / 2^zoom] is a double, [k / (k / 2^zoom)] is
    exactly [2^zoom], and a correctly rounded [Math.log2] gives [zoom]. *)
Lemma googleZoomLevel_inverts_metersPerPx_binary64
  (loc : LatLong) (zoom : Z) (k : R) :
  (lit 156543.03392 * Math_cos (latitude loc * Math_PI / Fin 180))%num = Fin k ->
  powerRZ 2 (-1000) <= Rabs k -> (1 <= zoom <= 20)%Z ->
  googleZoomLevel loc (googleZoomMetersPerPx loc zoom) = Fin (IZR zoom).
Proof.
  intros Hnum Hk Hz.
  destruct (nmul_output _ _ _ Hnum) as (y & Hy).
  pose proof (pow2_pos (-1000)) as Hlow. pose proof (pow2_pos zoom) as Hpz.
  assert (Hk0 : k <> 0) by (intros ->; rewrite Rabs_R0 in Hk; lra).
  destruct (round64_output y k Hy Hk0) as (Hfin & m & e & Ek & Hm & He).
  pose proof (pow2_pos e) as Hpe.
  assert (Habs : Rabs k = IZR (Z.abs m) * powerRZ 2 e).
  { rewrite Ek, Rabs_mult, (Rabs_pos_eq (powerRZ 2 e)) by lra.
    now rewrite <- abs_IZR. }
  assert (Hroom : (-1053 <= e)%Z).
  { assert (Hlt : powerRZ 2 (-1000) < powerRZ 2 (53 + e)).
    { rewrite pow2_add, (pow2_IZR 53) by lia.
      apply Rle_lt_trans with (Rabs k); [exact Hk |]. rewrite Habs.
      apply Rmult_lt_compat_r; [exact Hpe |]. apply IZR_lt. exact Hm. }
    apply pow2_lt_inv in Hlt. lia. }
  assert (Hp : round64 (powerRZ 2 zoom) = Fin (powerRZ 2 zoom)).
  { pose proof (round64_representable 1 zoom ltac:(vm_compute; reflexivity)
                  ltac:(lia)) as H.
    now rewrite Rmult_1_l in H. }
  assert (Hd : round64 (k / powerRZ 2 zoom) = Fin (k / powerRZ 2 zoom)).
  { assert (Ed : k / powerRZ 2 zoom = IZR m * powerRZ 2 (e + - zoom)).
    { rewrite Ek, pow2_add, powerRZ_neg'. field. lra. }
    rewrite Ed. apply round64_double; [exact Hm | lia |].
    rewrite <- Ed. unfold Rdiv.
    rewrite Rabs_mult, Rabs_inv, (Rabs_pos_eq (powerRZ 2 zoom)) by lra.
    pose proof (pow2_ge_1 zoom ltac:(lia)) as H1.
    apply Rle_lt_trans with (Rabs k); [| exact Hfin].
    pose proof (Rabs_pos k) as Hk1.
    apply Rmult_le_reg_r with (powerRZ 2 zoom); [exact Hpz |].
    rewrite Rmult_assoc, Rinv_l by lra. nra. }
  unfold googleZoomLevel, googleZoomMetersPerPx, Math_pow2. rewrite Hnum.
  change (@rnd binary64) with round64. rewrite Hp.
  rewrite ndiv_b64 by lra. rewrite Hd.
  rewrite ndiv_b64
    by (intros E; apply Hk0; apply Rmult_integral in E as [E | E];
        [exact E | apply Rinv_neq_0_compat in E; [easy | lra]]).
  replace (k / (k / powerRZ 2 zoom)) with (powerRZ 2 zoom) by (field; lra).
  rewrite Hp. unfold Math_log2. rewrite Rsign_pos by exact Hpz.
  change (@rnd binary64) with round64.
  rewrite log2_pow2, round64_integer by lia.
  cbn [Math_floor]. rewrite ZfloorZ. apply clamp_zoom_in_range, Hz.
Qed.

(** ** Rounding is odd

    Rounding to nearest, ties to even, commutes with the opposite. *)

Lemma round_half_even_opp (t : R) :
  round_half_even (- t) = (- round_half_even t)%Z.
Proof.
  unfold round_half_even.
  pose proof (Zfloor_bound t) as [Hlo Hhi]. set (f := Zfloor t) in *.
  destruct (Req_dec (IZR f) t) as [E | Hne].
  - assert (E' : Zfloor (- t) = (- f)%Z)
      by (apply Zfloor_eq; rewrite opp_IZR; lra).
    rewrite E', opp_IZR.
    destruct (total_order_T (- t - - IZR f) (1 / 2)) as [[H | H] | H];
      [| lra | lra].
    destruct (total_order_T (t - IZR f) (1 / 2)) as [[H' | H'] | H'];
      [reflexivity | lra | lra].
  - assert (E' : Zfloor (- t) = (- f - 1)%Z)
      by (apply Zfloor_eq; rewrite minus_IZR, opp_IZR; lra).
    assert (Ev : Z.even (- f - 1) = negb (Z.even f)).
    { rewrite Z.even_sub, Z.even_opp. now destruct (Z.even f). }
    rewrite E', Ev, minus_IZR, opp_IZR.
    destruct (total_order_T (- t - (- IZR f - 1)) (1 / 2)) as [[H | H] | H];
      destruct (total_order_T (t - IZR f) (1 / 2)) as [[H' | H'] | H'];
      try lra; try lia.
    destruct (Z.even f); cbn [negb]; lia.
Qed.

Lemma round64_opp (x : R) : round64 (- x) = nopp (round64 x).
Proof.
  unfold round64.
  destruct (Req_dec_T x 0) as [E | Hne].
  - destruct (Req_dec_T (- x) 0) as [_ | H]; [| lra].
    cbn [nopp]. f_equal. lra.
  - destruct (Req_dec_T (- x) 0) as [H | _]; [lra |].
    assert (Eq : quantum (- x) = quantum x)
      by (unfold quantum; now rewrite Rabs_Ropp).
    rewrite Eq. set (u := powerRZ 2 (quantum x)).
    assert (Hu : 0 < u) by apply pow2_pos.
    replace (- x / u) with (- (x / u)) by (field; lra).
    rewrite round_half_even_opp, opp_IZR.
    set (r := IZR (round_half_even (x / u)) * u).
    replace (- IZR (round_half_even (x / u)) * u) with (- r) by (unfold r; ring).
    rewrite Rabs_Ropp.
    destruct (Rle_dec (powerRZ 2 1024) (Rabs r)) as [Hov | Hfin];
      [| reflexivity].
    assert (Hr : r <> 0).
    { intros E. rewrite E, Rabs_R0 in Hov.
      pose proof (pow2_pos 1024). lra. }
    destruct (Rlt_dec (- r) 0), (Rlt_dec r 0); try reflexivity; lra.
Qed.

Lemma nsub_swap (a b : number) : (a - b)%num = nopp (b - a)%num.
Proof.
  destruct a as [| | | x], b as [| | | y]; try reflexivity.
  cbn [nsub]. change (@rnd binary64) with round64.
  rewrite <- round64_opp. f_equal. ring.
Qed.

Lemma ndiv_nopp_2 (a : number) : (nopp a / Fin 2)%num = nopp (a / Fin 2)%num.
Proof.
  destruct a as [| | | x]; cbn [nopp ndiv]; try reflexivity.
  - destruct (Rlt_dec 2 0); [lra | reflexivity].
  - destruct (Rlt_dec 2 0); [lra | reflexivity].
  - destruct (Req_dec_T 2 0); [lra |].
    change (@rnd binary64) with round64.
    rewrite <- round64_opp. f_equal. field.
Qed.

Lemma Math_sin_nopp (a : number) : Math_sin (nopp a) = nopp (Math_sin a).
Proof.
  destruct a as [| | | x]; cbn [nopp Math_sin]; try reflexivity.
  change (@rnd binary64) with round64.
  now rewrite sin_neg, round64_opp.
Qed.

Lemma nmul_nopp_nopp (a : number) : (nopp a * nopp a)%num = (a * a)%num.
Proof.
  destruct a as [| | | x]; cbn [nopp nmul]; try reflexivity.
  f_equal. ring.
Qed.

(** X20: Two points on the same parallel: in binary64 arithmetic too, the
    distance does not depend on the order of the points, whatever the
    coordinates are (the two calls then compute the same products). *)
Lemma haversineMeters_comm_same_latitude (pt1 pt2 : LatLong) :
  latitude pt1 = latitude pt2 ->
  haversineMeters pt1 pt2 = haversineMeters pt2 pt1.
Proof.
  intros E. unfold haversineMeters; cbv zeta. rewrite E.
  rewrite (nsub_swap (degToRad (longitude pt2)) (degToRad (longitude pt1))).
  now rewrite ndiv_nopp_2, Math_sin_nopp, nmul_nopp_nopp.
Qed.

(** ** Evaluating a computation in binary64

    To evaluate a computation step by step one names the double that each
    operation returns.  A double with a full 53-bit significand is written
    [dyadic m q] with [2^52 < |m| < 2^53]; it is the rounding of every real
    at distance less than half a unit in the last place, [2^q / 2]. *)

Lemma round_half_even_near (t : R) (m : Z) :
  IZR m - 1 / 2 < t < IZR m + 1 / 2 -> round_half_even t = m.
Proof.
  intros [Hlo Hhi]. unfold round_half_even.
  destruct (Rle_dec (IZR m) t) as [Hle | Hgt].
  - assert (E : Zfloor t = m) by (apply Zfloor_eq; lra).
    rewrite E.
    destruct (total_order_T (t - IZR m) (1 / 2)) as [[H | H] | H];
      [reflexivity | lra | lra].
  - assert (E : Zfloor t = (m - 1)%Z)
      by (apply Zfloor_eq; rewrite minus_IZR; lra).
    rewrite E, minus_IZR.
    destruct (total_order_T (t - (IZR m - 1)) (1 / 2)) as [[H | H] | H];
      [lra | lra | lia].
Qed.

Lemma round64_near (x : R) (m q : Z) :
  (2 ^ 52 < Z.abs m < 2 ^ 53)%Z -> (-1074 <= q <= 970)%Z ->
  Rabs (x - dyadic m q) < powerRZ 2 q / 2 ->
  round64 x = Fin (dyadic m q).
Proof.
  intros [Hm0 Hm1] Hq Hx. unfold dyadic in *.
  pose proof (pow2_pos q) as Hu. set (u := powerRZ 2 q) in *.
  assert (Hlo : IZR (2 ^ 52) + 1 <= IZR (Z.abs m))
    by (rewrite <- plus_IZR; apply IZR_le; lia).
  assert (Hhi : IZR (Z.abs m) <= IZR (2 ^ 53) - 1)
    by (rewrite <- minus_IZR; apply IZR_le; lia).
  rewrite abs_IZR in Hlo, Hhi.
  assert (Ht : IZR m - 1 / 2 < x / u < IZR m + 1 / 2).
  { apply Rabs_def2 in Hx. destruct Hx as [Hx1 Hx2].
    split; (apply Rmult_lt_reg_r with u; [exact Hu |]);
      replace (x / u * u) with x by (field; lra); lra. }
  assert (Habs : IZR (2 ^ 52) < Rabs (x / u) < IZR (2 ^ 53)).
  { revert Hlo Hhi. unfold Rabs.
    destruct (Rcase_abs (x / u)), (Rcase_abs (IZR m)); lra. }
  assert (Eabs : Rabs x = Rabs (x / u) * u).
  { unfold Rdiv. rewrite Rabs_mult, (Rabs_pos_eq (/ u)).
    - field. lra.
    - apply Rlt_le, Rinv_0_lt_compat, Hu. }
  assert (Hq' : quantum x = q).
  { unfold quantum. rewrite (ilog2_unique (Rabs x) (52 + q)); [lia |].
    replace (52 + q + 1)%Z with (53 + q)%Z by lia.
    rewrite !pow2_add, (pow2_IZR 52), (pow2_IZR 53), Eabs by lia.
    fold u. split; [apply Rlt_le |]; apply Rmult_lt_compat_r; lra. }
  unfold round64.
  destruct (Req_dec_T x 0) as [E0 | _].
  - exfalso. rewrite E0 in Habs. unfold Rdiv in Habs.
    rewrite Rmult_0_l, Rabs_R0 in Habs. lra.
  - rewrite Hq'. fold u. rewrite (round_half_even_near _ m Ht).
    destruct (Rle_dec (powerRZ 2 1024) (Rabs (IZR m * u))) as [Hov | _];
      [| reflexivity].
    exfalso.
    assert (Hr : Rabs (IZR m * u) < powerRZ 2 (53 + q)).
    { rewrite Rabs_mult, (Rabs_pos_eq u), pow2_add, (pow2_IZR 53)
        by lra || lia.
      apply Rmult_lt_compat_r; [exact Hu | lra]. }
    pose proof (pow2_le (53 + q) 1024 ltac:(lia)). lra.
Qed.

Lemma dyadic_opp (m q : Z) : dyadic (- m) q = - dyadic m q.
Proof. unfold dyadic. rewrite opp_IZR. ring. Qed.


Lemma powerRZ_2_neg (p : positive) (v : Z) :
  (2 ^ Zpos p)%Z = v -> powerRZ 2 (Zneg p) = / IZR v.
Proof.
  intros <-. change (Zneg p) with (- Zpos p)%Z.
  rewrite powerRZ_neg'. f_equal. apply pow2_IZR. lia.
Qed.

(** Writes the doubles of the goal as quotients of integer numerals, the
    form in which [lra] computes with them. *)
Ltac dyadic_numerals :=
  unfold dyadic;
  repeat match goal with
         | |- context [powerRZ 2 (Zneg ?p)] =>
             let v := eval vm_compute in (2 ^ Zpos p)%Z in
             rewrite (powerRZ_2_neg p v eq_refl)
         end.

(** The side conditions of the lemmas below, on closed terms. *)
Ltac near_side :=
  first [ lia
        | dyadic_numerals; first [ lra | apply Rabs_def1; lra ] ].



Lemma nmul_near (a b : R) (m q : Z) :
  (2 ^ 52 < Z.abs m < 2 ^ 53)%Z -> (-1074 <= q <= 970)%Z ->
  Rabs (a * b - dyadic m q) < powerRZ 2 q / 2 ->
  (Fin a * Fin b)%num = Fin (dyadic m q).
Proof. intros Hm Hq H. now apply round64_near. Qed.

Lemma ndiv_near (a b : R) (m q : Z) :
  (2 ^ 52 < Z.abs m < 2 ^ 53)%Z -> (-1074 <= q <= 970)%Z ->
  b <> 0 -> Rabs (a / b - dyadic m q) < powerRZ 2 q / 2 ->
  (Fin a / Fin b)%num = Fin (dyadic m q).
Proof.
  intros Hm Hq Hb H. rewrite ndiv_b64 by exact Hb. now apply round64_near.
Qed.

(** ** The [Math] functions on closed arguments

    The value of a function is enclosed between two partial sums of its
    alternating Taylor series (for [Math.asin] and [Math.sqrt], the inverse
    function is applied to the two ends of the rounding interval). *)



Lemma PI_bracket : 3.14159265358979323 < PI < 3.14159265358979324.
Proof.
  pose proof (PI_2_3_7_ineq 9) as [Hlo Hhi].
  unfold PI_2_3_7_tg, tg_alt, Ratan_seq in Hlo, Hhi.
  cbn -[pow Rmult Rplus Rdiv INR Rinv] in Hlo, Hhi.
  simpl in Hlo, Hhi.
  lra.
Qed.

(** [Math.PI] is 0x1.921fb54442d18p+1. *)
Lemma Math_PI_double : Math_PI = Fin (dyadic 7074237752028440 (-51)).
Proof.
  apply round64_near; [lia | lia |].
  pose proof PI_bracket. dyadic_numerals. apply Rabs_def1; lra.
Qed.





(** [Math.cos], by the integer evaluation of the two partial sums *)
Lemma cos_term_S (x : R) (n : nat) :
  cos_term x (S n)
  = - cos_term x n * (x * x) / (INR (2 * n + 1) * INR (2 * n + 2)).
Proof.
  unfold cos_term.
  replace (2 * S n)%nat with (S (S (2 * n))) by lia.
  rewrite !fact_simpl, !mult_INR.
  replace (S (2 * n)) with (2 * n + 1)%nat by lia.
  replace (S (2 * n + 1)) with (2 * n + 2)%nat by lia.
  pose proof (INR_fact_neq_0 (2 * n)).
  assert (INR (2 * n + 1) <> 0) by (apply not_0_INR; lia).
  assert (INR (2 * n + 2) <> 0) by (apply not_0_INR; lia).
  replace (2 * n + 2)%nat with (S (S (2 * n))) at 1 by lia.
  simpl pow. field. auto.
Qed.

Lemma cos_sum_spec (m k : Z) (n : nat) :
  (0 <= k)%Z ->
  let '(s, t, d) := cos_sum m k n in
  (0 < d)%Z
  /\ cos_approx (IZR m / powerRZ 2 k) n = IZR s / IZR d
  /\ cos_term (IZR m / powerRZ 2 k) n = IZR t / IZR d.
Proof.
  intros Hk. induction n as [| n IH].
  - cbn [cos_sum]. split; [lia |].
    unfold cos_approx, cos_term. cbn. split; field.
  - cbn [cos_sum]. destruct (cos_sum m k n) as [[s t] d].
    destruct IH as (Hd & Hs & Ht).
    set (c := (2 ^ (2 * k) * (2 * Z.of_nat n + 1) * (2 * Z.of_nat n + 2))%Z).
    assert (Hp : powerRZ 2 k * powerRZ 2 k = IZR (2 ^ (2 * k))).
    { rewrite <- pow2_add, <- pow2_IZR by lia. f_equal. lia. }
    assert (Hpk : 0 < powerRZ 2 k) by apply pow2_pos.
    assert (Hc : IZR c = powerRZ 2 k * powerRZ 2 k
                         * (INR (2 * n + 1) * INR (2 * n + 2))).
    { unfold c. rewrite !mult_IZR, Hp, !INR_IZR_INZ.
      rewrite !Nat2Z.inj_add, Nat2Z.inj_mul. simpl (Z.of_nat 2).
      simpl (Z.of_nat 1). ring. }
    assert (H1 : 0 < INR (2 * n + 1)) by (apply lt_0_INR; lia).
    assert (H2 : 0 < INR (2 * n + 2)) by (apply lt_0_INR; lia).
    assert (Hc0 : 0 < IZR c) by (rewrite Hc; repeat apply Rmult_lt_0_compat; lra).
    assert (HdR : 0 < IZR d) by (apply IZR_lt; exact Hd).
    assert (Et : cos_term (IZR m / powerRZ 2 k) (S n)
                 = IZR (- (t * m * m)) / IZR (d * c)).
    { rewrite cos_term_S, Ht, opp_IZR, !mult_IZR, Hc. field. lra. }
    split; [apply lt_IZR; rewrite mult_IZR; apply Rmult_lt_0_compat; lra |].
    split; [| exact Et].
    change (cos_approx (IZR m / powerRZ 2 k) (S n))
      with (cos_approx (IZR m / powerRZ 2 k) n
            + cos_term (IZR m / powerRZ 2 k) (S n)).
    rewrite Hs, Et, plus_IZR, !mult_IZR. field. lra.
Qed.

Lemma Math_cos_check (mx k : Z) (n : nat) (m q : Z) :
  (2 ^ 52 < Z.abs m < 2 ^ 53)%Z -> (-1074 <= q <= 970)%Z ->
  cos_check mx k n m q = true ->
  Math_cos (Fin (dyadic mx (- k))) = Fin (dyadic m q).
Proof.
  intros Hm Hq. unfold cos_check.
  pose proof (cos_sum_spec mx k (2 * n + 1)) as S1.
  pose proof (cos_sum_spec mx k (2 * (n + 1))) as S2.
  destruct (cos_sum mx k (2 * n + 1)) as [[s1 t1] d1].
  destruct (cos_sum mx k (2 * (n + 1))) as [[s2 t2] d2].
  intros H. apply andb_prop in H as [H H5]. apply andb_prop in H as [H H4].
  apply andb_prop in H as [H H3]. apply andb_prop in H as [H1 H2].
  apply Z.leb_le in H1, H3. apply Z.ltb_lt in H2, H4, H5.
  destruct (S1 H1) as (Hd1 & E1 & _). destruct (S2 H1) as (Hd2 & E2 & _).
  assert (Hpk : 0 < powerRZ 2 k) by apply pow2_pos.
  assert (Ex : dyadic mx (- k) = IZR mx / powerRZ 2 k).
  { unfold dyadic. rewrite powerRZ_neg'. reflexivity. }
  rewrite Ex.
  assert (Hx : - 2 <= IZR mx / powerRZ 2 k <= 2).
  { apply IZR_le in H3. rewrite abs_IZR, <- pow2_IZR, pow2_add in H3 by lia.
    simpl (powerRZ 2 1) in H3. apply Rabs_le_inv in H3.
    split.
    - apply Rmult_le_reg_r with (powerRZ 2 k); [exact Hpk |].
      unfold Rdiv. rewrite Rmult_assoc, Rinv_l by lra. lra.
    - apply Rmult_le_reg_r with (powerRZ 2 k); [exact Hpk |].
      unfold Rdiv. rewrite Rmult_assoc, Rinv_l by lra. lra. }
  pose proof (pre_cos_bound _ n (proj1 Hx) (proj2 Hx)) as [Hlo Hhi].
  rewrite E1 in Hlo. rewrite E2 in Hhi.
  assert (Hu : powerRZ 2 q = 2 / powerRZ 2 (1 - q)).
  { replace q with (1 + - (1 - q))%Z at 1 by lia.
    rewrite pow2_add, powerRZ_neg'. simpl (powerRZ 2 1). unfold Rdiv. ring. }
  pose proof (pow2_pos (1 - q)) as He.
  assert (HeZ : powerRZ 2 (1 - q) = IZR (2 ^ (1 - q))) by (apply pow2_IZR; lia).
  apply IZR_lt in H4, H5, Hd1, Hd2.
  rewrite !mult_IZR, minus_IZR, mult_IZR, <- HeZ in H4.
  rewrite !mult_IZR, plus_IZR, mult_IZR, <- HeZ in H5.
  set (E := powerRZ 2 (1 - q)) in *.
  assert (L : (2 * IZR m - 1) / E < IZR s1 / IZR d1).
  { apply Rmult_lt_reg_r with (E * IZR d1); [apply Rmult_lt_0_compat; lra |].
    replace ((2 * IZR m - 1) / E * (E * IZR d1))
      with ((2 * IZR m - 1) * IZR d1) by (field; lra).
    replace (IZR s1 / IZR d1 * (E * IZR d1)) with (IZR s1 * E) by (field; lra).
    exact H4. }
  assert (U : IZR s2 / IZR d2 < (2 * IZR m + 1) / E).
  { apply Rmult_lt_reg_r with (E * IZR d2); [apply Rmult_lt_0_compat; lra |].
    replace ((2 * IZR m + 1) / E * (E * IZR d2))
      with ((2 * IZR m + 1) * IZR d2) by (field; lra).
    replace (IZR s2 / IZR d2 * (E * IZR d2)) with (IZR s2 * E) by (field; lra).
    exact H5. }
  apply round64_near; [exact Hm | exact Hq |].
  unfold dyadic. rewrite Hu. fold E.
  replace (IZR m * (2 / E)) with (2 * IZR m / E) by (field; lra).
  replace (2 / E / 2) with (1 / E) by (field; lra).
  assert (Em : (2 * IZR m - 1) / E = 2 * IZR m / E - 1 / E) by (field; lra).
  assert (Ep : (2 * IZR m + 1) / E = 2 * IZR m / E + 1 / E) by (field; lra).
  apply Rabs_def1; lra.
Qed.

Lemma Math_cos_opp (x : R) : Math_cos (Fin (- x)) = Math_cos (Fin x).
Proof. unfold Math_cos. now rewrite cos_neg. Qed.



(** ** The zoom round trip at the poles

    In real arithmetic the cosine of the latitude is zero at a pole and
    [googleZoomMetersPerPx] is zero.  In binary64 the latitude in radians is
    the double nearest to [PI / 2], whose cosine is 6.123233995736766e-17:
    the round trip holds at the two poles as everywhere else. *)

Lemma lit_zoom_scale :
  lit 156543.03392 = Fin (dyadic 5378777688824149 (-35)).
Proof. apply round64_near; near_side. Qed.

Lemma cos_pole :
  Math_cos (Fin (dyadic 7074237752028440 (-52)))
  = Fin (dyadic 4967757600021511 (-106)).
Proof.
  apply (Math_cos_check 7074237752028440 52 8); [lia | lia |].
  vm_compute. reflexivity.
Qed.

Lemma zoom_numerator_north :
  (lit 156543.03392 * Math_cos (Fin 90 * Math_PI / Fin 180))%num
  = Fin (dyadic 5933134815113107 (-89)).
Proof.
  rewrite lit_zoom_scale, Math_PI_double.
  rewrite (nmul_near 90 (dyadic 7074237752028440 (-51))
                     4974073419394997 (-44)) by near_side.
  rewrite (ndiv_near (dyadic 4974073419394997 (-44)) 180
                     7074237752028440 (-52)) by near_side.
  rewrite cos_pole.
  rewrite (nmul_near (dyadic 5378777688824149 (-35))
                     (dyadic 4967757600021511 (-106))
                     5933134815113107 (-89)) by near_side.
  reflexivity.
Qed.

Lemma zoom_numerator_south :
  (lit 156543.03392 * Math_cos (Fin (-90) * Math_PI / Fin 180))%num
  = Fin (dyadic 5933134815113107 (-89)).
Proof.
  rewrite lit_zoom_scale, Math_PI_double.
  rewrite (nmul_near (-90) (dyadic 7074237752028440 (-51))
                     (-4974073419394997) (-44)) by near_side.
  rewrite (ndiv_near (dyadic (-4974073419394997) (-44)) 180
                     (-7074237752028440) (-52)) by near_side.
  replace (dyadic (-7074237752028440) (-52))
    with (- dyadic 7074237752028440 (-52))
    by (now rewrite <- dyadic_opp).
  rewrite Math_cos_opp, cos_pole.
  rewrite (nmul_near (dyadic 5378777688824149 (-35))
                     (dyadic 4967757600021511 (-106))
                     5933134815113107 (-89)) by near_side.
  reflexivity.
Qed.

Lemma googleZoomLevel_inverts_metersPerPx_poles (lon : number) (zoom : Z) :
  (1 <= zoom <= 20)%Z ->
  let north := {| latitude := Fin 90; longitude := lon |} in
  let south := {| latitude := Fin (-90); longitude := lon |} in
  googleZoomLevel north (googleZoomMetersPerPx north zoom) = Fin (IZR zoom)
  /\ googleZoomLevel south (googleZoomMetersPerPx south zoom)
     = Fin (IZR zoom).
Proof.
  intros Hz north south.
  assert (Hk : powerRZ 2 (-1000) <= Rabs (dyadic 5933134815113107 (-89))).
  { pose proof (pow2_le (-1000) (-89) ltac:(lia)) as Hle.
    pose proof (pow2_pos (-89)) as Hp. unfold dyadic.
    rewrite Rabs_pos_eq by nra. nra. }
  split;
    apply googleZoomLevel_inverts_metersPerPx_binary64
      with (k := dyadic 5933134815113107 (-89));
    try exact Hk; try exact Hz.
  - exact zoom_numerator_north.
  - exact zoom_numerator_south.
Qed.

(** ** [haversineMeters] between the White House and GWU, both ways

    Each line of [haversineMeters] is evaluated on the two points of the
    test suite.  The two calls differ from the product
    [... * Math.cos(lat1) * Math.cos(lat2)] on: it is evaluated from left to
    right, and the two cosines are met in the other order. *)
















End Binary64Arithmetic.

(** * The kernel's binary64 floats

    The arithmetic of two computations on the primitive floats, which agree
    with [round64].  With the weight [2^-60] the pixel of tile 0 is [256],
    the bottom-right corner, and [256 / 256] is [1].  With the sines and the
    cosines of the White House and GWU, the argument of the square root in
    [haversineMeters] depends on the order of the two cosines, and so do the
    square root and the final product. *)

Section KernelFloats.

Import PrimFloat.

Example weighted_axis_float_tiny_weight :
  let w := 0x1p-60%float in
  ltb 0%float w = true
  /\ ltb w 1%float = true
  /\ eqb (weighted_axis_float w 0%float 256%float) 256%float = true
  /\ eqb (div (weighted_axis_float w 0%float 256%float) 256%float) 1%float
     = true.
Proof. repeat split; vm_compute; reflexivity. Qed.

Example haversine_a_float_order :
  let sinLat := float_dyadic 7258185540384148 (-69) in
  let sinLon := float_dyadic 7832555790803761 (-67) in
  let cosW := float_dyadic 7009933655580103 (-53) in
  let cosG := float_dyadic 7010072744342525 (-53) in
  let a1 := float_dyadic 8982052277893745 (-82) in
  let a2 := float_dyadic 8982052277893746 (-82) in
  eqb (haversine_a_float sinLat sinLon cosW cosG) a1 = true
  /\ eqb (haversine_a_float sinLat sinLon cosG cosW) a2 = true
  /\ eqb (sqrt a1) (float_dyadic 6360154659420208 (-67)) = true
  /\ eqb (sqrt a2) (float_dyadic 6360154659420209 (-67)) = true
  /\ eqb (6372800 * (2 * float_dyadic 6360154661389147 (-67)))
         (float_dyadic 4831790164244265 (-43)) = true
  /\ eqb (6372800 * (2 * float_dyadic 6360154661389148 (-67)))
         (float_dyadic 4831790164244266 (-43)) = true.
Proof. repeat split; vm_compute; reflexivity. Qed.

End KernelFloats.

(** * Further properties of the module

    Round trips, edge behaviour and monotonicity of the functions, each in
    the arithmetic in which it is stated. *)

(** ** For every rounding *)

Section FurtherAnyRounding.

Context {rounding : Rounding}.

(** X1: [clamp] brings every number except NaN into the range: a finite number
    or an infinity comes out between the two bounds.  NaN comes out as NaN
    (both comparisons are false). *)
Theorem clamp_range (x : number) (lo hi : R) :
  lo <= hi -> x <> NaN ->
  (exists r : R, clamp x (Fin lo, Fin hi) = Fin r /\ lo <= r <= hi)
  /\ clamp NaN (Fin lo, Fin hi) = NaN.
Proof.
  intros Hb Hx. split; [| reflexivity].
  destruct x as [| | | v]; [now elim Hx | | |].
  - exists hi. split; [reflexivity | lra].
  - exists lo. split; [reflexivity | lra].
  - unfold clamp, ngtb, nltb.
    destruct (Rlt_dec hi v); [exists hi; split; [reflexivity | lra] |].
    destruct (Rlt_dec v lo); [exists lo | exists v]; (split; [reflexivity | lra]).
Qed.

Lemma clamp_range_witness :
  (exists r : R, clamp PInf (Fin 1, Fin 20) = Fin r /\ 1 <= r <= 20)
  /\ clamp NaN (Fin 1, Fin 20) = NaN.
Proof. apply (clamp_range PInf 1 20); [lra | discriminate]. Defined.

End FurtherAnyRounding.

(** ** In real arithmetic *)

Section FurtherExactArithmetic.

#[local] Existing Instance exact.

(** *** World coordinates *)














(** *** Tiles *)










Section Ranges.

Local Open Scope num_scope.



End Ranges.





(** *** Distances *)







(** *** Zoom levels *)













End FurtherExactArithmetic.

(** ** In binary64 arithmetic *)

Section FurtherBinary64.

#[local] Existing Instance binary64.

(** [1 << zoom] is a power of two between [2^0] and [2^30], or [-2^31]. *)
Lemma shl1_power (zoom : Z) :
  exists s j : Z,
    (s = 1 \/ s = -1)%Z /\ (0 <= j <= 31)%Z
    /\ shl1 zoom = Fin (IZR s * powerRZ 2 j).
Proof.
  unfold shl1. pose proof (Z.mod_pos_bound zoom 32 ltac:(lia)) as Hj.
  set (j := (zoom mod 32)%Z) in *. rewrite Z.shiftl_1_l.
  destruct (Z.eq_dec j 31) as [-> | Hne].
  - exists (-1)%Z, 31%Z. split; [now right |]. split; [lia |].
    rewrite (pow2_IZR 31) by lia. rewrite <- mult_IZR. reflexivity.
  - exists 1%Z, j. split; [now left |]. split; [lia |].
    rewrite pow2_IZR by lia. rewrite Rmult_1_l. do 2 f_equal.
    unfold int32.
    assert (H1 : (0 < 2 ^ j)%Z) by (apply Z.pow_pos_nonneg; lia).
    assert (H2 : (2 ^ j <= 2 ^ 30)%Z) by (apply Z.pow_le_mono_r; lia).
    rewrite Z.mod_small by lia. lia.
Qed.

(** Multiplying a double by [1 << zoom] and dividing the product by it are
    both exact. *)
Lemma shl1_scale_exact (m e zoom : Z) :
  (Z.abs m < 2 ^ 53)%Z -> (-1074 <= e <= 939)%Z ->
  (Fin (dyadic m e) * shl1 zoom / shl1 zoom)%num = Fin (dyadic m e).
Proof.
  intros Hm He. destruct (shl1_power zoom) as (s & j & Hs & Hj & ->).
  pose proof (pow2_pos j) as Hp. pose proof (pow2_pos e) as Hpe.
  assert (Hs0 : IZR s <> 0) by (destruct Hs as [-> | ->]; lra).
  assert (Ep : dyadic m e * (IZR s * powerRZ 2 j) = dyadic (m * s) (e + j)).
  { unfold dyadic. rewrite mult_IZR, pow2_add. ring. }
  rewrite nmul_b64, Ep. unfold dyadic at 1.
  rewrite round64_representable by (destruct Hs as [-> | ->]; lia).
  rewrite ndiv_b64 by (apply Rmult_integral_contrapositive_currified; lra).
  replace (IZR (m * s) * powerRZ 2 (e + j) / (IZR s * powerRZ 2 j))
    with (IZR m * powerRZ 2 e)
    by (rewrite mult_IZR, pow2_add; field; lra).
  unfold dyadic. apply round64_representable; lia.
Qed.

(** X17: World -> pixel -> world is exact in binary64, for every zoom: the two
    coordinates are multiplied and divided by the same power of two.  The
    coordinates are any doubles [m * 2^e] below [2^992] in absolute value. *)
Theorem pixelToWorldCoords_worldToPixelCoords (mx ex my ey zoom : Z) :
  (Z.abs mx < 2 ^ 53)%Z -> (-1074 <= ex <= 939)%Z ->
  (Z.abs my < 2 ^ 53)%Z -> (-1074 <= ey <= 939)%Z ->
  let w := {| wc_x := Fin (dyadic mx ex); wc_y := Fin (dyadic my ey) |} in
  pixelToWorldCoords (worldToPixelCoords w zoom) = w.
Proof.
  intros Hmx Hex Hmy Hey w.
  unfold pixelToWorldCoords, worldToPixelCoords, w;
    cbn [wc_x wc_y pc_x pc_y pc_zoom].
  now rewrite !shl1_scale_exact.
Qed.

Lemma pixelToWorldCoords_worldToPixelCoords_witness :
  let w := {| wc_x := Fin (dyadic 5 (-3)); wc_y := Fin (dyadic 3 1) |} in
  pixelToWorldCoords (worldToPixelCoords w 17) = w.
Proof. apply (pixelToWorldCoords_worldToPixelCoords 5 (-3) 3 1 17); lia. Defined.

(** The corner pixels of a tile, divided by the tile size again *)
Lemma tile_edge_exact (x : Z) :
  (Z.abs x < 2 ^ 44)%Z ->
  Math_floor (Fin (IZR x) * Fin 256 / Fin 256)%num = Fin (IZR x).
Proof.
  intros Hx. rewrite nmul_b64, <- mult_IZR.
  rewrite round64_integer by lia.
  rewrite ndiv_b64 by lra.
  replace (IZR (x * 256) / 256) with (IZR x) by (rewrite mult_IZR; field).
  rewrite round64_integer by lia.
  cbn [Math_floor]. now rewrite ZfloorZ.
Qed.

(** X18: In binary64, the top-left pixel of a tile is in the tile, and the
    bottom-right pixel is in the next tile on both axes (the largest
    coordinates of a tile are excluded from it). *)
Theorem tileToPixelCoords_corners (x y zoom : Z) :
  (Z.abs x < 2 ^ 44 - 1)%Z -> (Z.abs y < 2 ^ 44 - 1)%Z ->
  let tc := {| tc_x := Fin (IZR x); tc_y := Fin (IZR y); tc_zoom := zoom |} in
  pixelToTileCoords (pb_topLeft (tileToPixelCoords tc)) = tc
  /\ pixelToTileCoords (pb_bottomRight (tileToPixelCoords tc))
     = {| tc_x := Fin (IZR (x + 1)); tc_y := Fin (IZR (y + 1));
          tc_zoom := zoom |}.
Proof.
  intros Hx Hy tc.
  unfold pixelToTileCoords, tileToPixelCoords, tc, GOOGLE_TILE_SIZE;
    cbn [pb_topLeft pb_bottomRight pc_x pc_y pc_zoom tc_x tc_y tc_zoom].
  rewrite !nadd_b64, <- !plus_IZR, !round64_integer by lia.
  now rewrite !tile_edge_exact by lia.
Qed.

Lemma tileToPixelCoords_corners_witness :
  let tc := {| tc_x := Fin (IZR 2); tc_y := Fin (IZR 5); tc_zoom := 3 |} in
  pixelToTileCoords (pb_topLeft (tileToPixelCoords tc)) = tc
  /\ pixelToTileCoords (pb_bottomRight (tileToPixelCoords tc))
     = {| tc_x := Fin (IZR (2 + 1)); tc_y := Fin (IZR (5 + 1));
          tc_zoom := 3 |}.
Proof. apply (tileToPixelCoords_corners 2 5 3); lia. Defined.

(** From [2^54] on, the doubles are at least 4 apart: adding 1 to one of
    them gives it back. *)
Lemma round64_add_one_absorbed (m e : Z) :
  (2 ^ 52 <= m < 2 ^ 53)%Z -> (2 <= e <= 970)%Z ->
  round64 (dyadic m e + 1) = Fin (dyadic m e).
Proof.
  intros [Hm0 Hm1] He. unfold dyadic.
  pose proof (pow2_pos e) as Hu. set (u := powerRZ 2 e) in *.
  assert (Hu4 : 4 <= u).
  { unfold u. replace 4 with (powerRZ 2 2) by (simpl; lra).
    apply pow2_le. lia. }
  assert (Hlo : IZR (2 ^ 52) <= IZR m) by (apply IZR_le; lia).
  assert (Hhi : IZR m <= IZR (2 ^ 53) - 1)
    by (rewrite <- minus_IZR; apply IZR_le; lia).
  set (x := IZR m * u + 1).
  assert (Hx : 0 < x) by (unfold x; nra).
  assert (Hq : quantum x = e).
  { unfold quantum. rewrite Rabs_pos_eq by lra.
    rewrite (ilog2_unique x (52 + e)); [lia |].
    replace (52 + e + 1)%Z with (53 + e)%Z by lia.
    rewrite !pow2_add, (pow2_IZR 52), (pow2_IZR 53) by lia.
    fold u. unfold x. split; nra. }
  assert (Ht : IZR m - 1 / 2 < x / u < IZR m + 1 / 2).
  { assert (Ex : x / u = IZR m + / u) by (unfold x; field; lra).
    assert (Hi : 0 < / u <= / 4).
    { split; [apply Rinv_0_lt_compat; lra |].
      apply Rinv_le_contravar; lra. }
    rewrite Ex. lra. }
  unfold round64. destruct (Req_dec_T x 0) as [E0 | _]; [lra |].
  rewrite Hq. fold u. rewrite (round_half_even_near _ m Ht).
  destruct (Rle_dec (powerRZ 2 1024) (Rabs (IZR m * u))) as [Hov | _];
    [| reflexivity].
  exfalso. rewrite Rabs_pos_eq in Hov by nra.
  assert (Hr : IZR m * u < powerRZ 2 (53 + e)).
  { rewrite pow2_add, (pow2_IZR 53) by lia. fold u. nra. }
  pose proof (pow2_le (53 + e) 1024 ltac:(lia)). lra.
Qed.

(** The loop does not leave a counter that [curr++] does not change. *)
Lemma inclusiveRange_loop_stuck (c : R) (max : number) :
  round64 (c + 1) = Fin c -> (Fin c <? max)%num = true ->
  forall (fuel : nat) (prefix : list number),
    inclusiveRange_loop fuel (prefix ++ [Fin c]) (Fin c) max = None.
Proof.
  intros Hc Hlt. induction fuel as [| fuel IH]; intros prefix.
  - cbn [inclusiveRange_loop]. now rewrite last_last, Hlt.
  - cbn [inclusiveRange_loop]. rewrite last_last, Hlt.
    rewrite nadd_b64, Hc. apply IH.
Qed.

(** X19: In binary64, [inclusiveRange(min, max)] does not end when [min] is a
    double from [2^54] on and [min < max]: [curr++] leaves [curr] as it is,
    the array grows by the same number at each turn and the test stays
    true.  No amount of fuel gives a result. *)
Theorem inclusiveRange_diverges (m e : Z) (max : number) (fuel : nat) :
  (2 ^ 52 <= m < 2 ^ 53)%Z -> (2 <= e <= 970)%Z ->
  (Fin (dyadic m e) <? max)%num = true ->
  inclusiveRange fuel (Fin (dyadic m e)) max = None.
Proof.
  intros Hm He Hlt. unfold inclusiveRange.
  apply (inclusiveRange_loop_stuck (dyadic m e) max
           (round64_add_one_absorbed m e Hm He) Hlt fuel []).
Qed.

Lemma inclusiveRange_diverges_witness :
  inclusiveRange 1000 (Fin (dyadic (2 ^ 52) 2)) (Fin (dyadic (2 ^ 52 + 1) 2))
  = None.
Proof.
  apply (inclusiveRange_diverges (2 ^ 52) 2 (Fin (dyadic (2 ^ 52 + 1) 2)) 1000);
    [lia | lia |].
  apply nltb_Fin_true. unfold dyadic. simpl. lra.
Defined.

Lemma haversineMeters_comm_same_latitude_witness :
  haversineMeters (geo 38.5 (-77.25)) (geo 38.5 (-77.5))
  = haversineMeters (geo 38.5 (-77.5)) (geo 38.5 (-77.25)).
Proof. apply haversineMeters_comm_same_latitude. reflexivity. Defined.

End FurtherBinary64.
